(** * Outfit recommender: scoring, candidate selection, assembly, sampling

    A shallow embedding of [recommend_from_prompt_tn.ts].

    Conventions of the model.
    - A JavaScript [number] is an exact rational ([Qc], rationals in lowest
      terms, so that equal numbers are equal terms).  Counts, array lengths
      and the two size options of the command line are [nat].  Where the
      rounding of the runtime decides a property, the computation is also
      given on binary64 floating-point numbers, as the runtime performs it
      (module [Double]).
    - A JavaScript string is a [string] of bytes (UTF-8).  The two steps of
      [normalizeText] that consult the Unicode tables of the runtime,
      [toLowerCase] and [normalize('NFD')], are the operations of the class
      [JsText]; every regular-expression step is written out.
    - An optional or nullable field is an [option]; an enum is an inductive
      type; a [Record<Enum, number>] is a total function on the enum.
    - [Math.random] reads the next element of a stream of draws; code that
      draws is written in the state monad [Rand]. *)

From Stdlib Require Import QArith Qcanon String Ascii List Sorted Permutation.
From Stdlib Require Floats.
From stdpp Require Import base numbers functions list strings gmap.

Local Open Scope Qc_scope.

(* A decimal literal of a [float] is read as the nearest binary64 value, as
   the JavaScript parser reads it. *)
#[local] Set Warnings "-inexact-float".

(** ** Numbers *)

Definition num (q : Q) : Qc := Q2Qc q.
Arguments num q%_Q.

Definition Math_max (x y : Qc) : Qc := if decide (x < y) then y else x.

(** [Math.max(x, ...xs)] *)
Definition Math_max_list (x : Qc) (xs : list Qc) : Qc := fold_left Math_max xs x.

(** [xs.reduce((a, b) => a + b, 0)] *)
Definition sum (xs : list Qc) : Qc := fold_left Qcplus xs 0.

(** ** The closed vocabularies *)

Inductive CategoryMain := top | bottom | shoes | mono.
Inductive Gender := men | women | unisex.
Inductive Colour :=
  black | white | grey | red | blue | green | beige | brown | pink | yellow
| purple.
Inductive Vibe :=
  streetwear | edgy | minimal | y2k | techwear | sporty | preppy | vintage
| chic.
Inductive Fit := oversized | regular | slim | cropped.
Inductive Sport := football | basketball | running | tennis | gym | other | none.
Inductive EntityType := brand | team | sponsor | generic.
Inductive Mode := outfit | single.
Inductive OutfitForm :=
  top_bottom_shoes | top_bottom | mono_only | mono_and_shoes | top_only
| bottom_only | shoes_only.

(** [Gender | 'any'] *)
Inductive TargetGender := any | target (g : Gender).
(** [Fit | 'mixed']; the [null] of [fit_preference] is [None]. *)
Inductive FitPreference := mixed | prefer (f : Fit).

#[global] Instance CategoryMain_eq_dec : EqDecision CategoryMain.
Proof. solve_decision. Defined.
#[global] Instance Gender_eq_dec : EqDecision Gender.
Proof. solve_decision. Defined.
#[global] Instance Colour_eq_dec : EqDecision Colour.
Proof. solve_decision. Defined.
#[global] Instance Vibe_eq_dec : EqDecision Vibe.
Proof. solve_decision. Defined.
#[global] Instance Fit_eq_dec : EqDecision Fit.
Proof. solve_decision. Defined.
#[global] Instance Sport_eq_dec : EqDecision Sport.
Proof. solve_decision. Defined.
#[global] Instance EntityType_eq_dec : EqDecision EntityType.
Proof. solve_decision. Defined.
#[global] Instance Mode_eq_dec : EqDecision Mode.
Proof. solve_decision. Defined.
#[global] Instance OutfitForm_eq_dec : EqDecision OutfitForm.
Proof. solve_decision. Defined.

(** Key order of the object literals of [buildWeights] ([Object.values],
    [Object.keys]). *)
Definition colour_keys : list Colour :=
  [black; white; grey; red; blue; green; beige; brown; pink; yellow; purple].
Definition vibe_keys : list Vibe :=
  [streetwear; edgy; minimal; y2k; techwear; sporty; preppy; vintage; chic].
Definition fit_keys : list Fit := [oversized; regular; slim; cropped].

(** ** Catalog items and intents *)

Record EntityMeta := {
  text : string;
  weight : Qc;
  type : EntityType;
}.

Record SportMeta := {
  sport : option Sport;
  teams : list string;     (* [teams || []] *)
  isKit : bool;            (* absent is falsy *)
}.

Record IndexItem := {
  id : string;
  imagePath : string;
  category : CategoryMain;
  sub : option string;
  colours : list Colour;
  vibes : list Vibe;
  gender : Gender;
  fit : option Fit;
  sportMeta : option SportMeta;
  name : option string;
  name_normalized : option string;
  entities : list string;      (* [entities || []] *)
  entityMeta : list EntityMeta; (* [entityMeta || []] *)
}.

(** [JSON.parse] is cast to [PromptIntent] unchecked and [main] tests
    [outfit_mode] and [requested_form] for absence: both are optional here. *)
Record PromptIntent := {
  outfit_mode : option Mode;
  requested_form : option OutfitForm;
  required_categories : list CategoryMain;
  optional_categories : list CategoryMain;
  target_gender : TargetGender;
  vibe_tags : list Vibe;
  colour_hints : list Colour;
  brand_focus : list string;
  team_focus : list string;
  sport_context : Sport;
  fit_preference : option FitPreference;
  specific_items : list string;
}.

Record ContextWeights := {
  wColour : Colour → Qc;
  wVibe : Vibe → Qc;
  wFit : Fit → Qc;
  wSport : Sport → Qc;
  brandTokens : list string;
  teamTokens : list string;
  sportContext : Sport;
  specificTokens : list string;
}.

(** [item.sportMeta?.sport || 'none'] *)
Definition sportOf (item : IndexItem) : Sport :=
  match sportMeta item with
  | Some sm => default none (sport sm)
  | None => none
  end.

(** [item.sportMeta?.teams || []] *)
Definition teamsOf (item : IndexItem) : list string :=
  match sportMeta item with
  | Some sm => teams sm
  | None => []
  end.

(** [sm.isKit] with [sm = item.sportMeta || {}] *)
Definition isKitOf (item : IndexItem) : bool :=
  match sportMeta item with
  | Some sm => isKit sm
  | None => false
  end.

(** ** Text helpers *)

(** The Unicode-table steps of the runtime. *)
Class JsText := {
  toLowerCase : string → string;
  normalizeNFD : string → string;
}.

Definition byte (c : ascii) : N := N_of_ascii c.

(** A combining mark U+0300 .. U+036F: in UTF-8 the two-byte sequences
    CC 80 .. CD AF. *)
Definition isCombiningMark (b1 b2 : ascii) : bool :=
  ((byte b1 =? 204)%N && (128 <=? byte b2)%N && (byte b2 <=? 191)%N)
  || ((byte b1 =? 205)%N && (128 <=? byte b2)%N && (byte b2 <=? 175)%N).

(** [.replace(/[U+0300-U+036F]/g, '')] *)
Fixpoint stripCombiningMarks (s : string) : string :=
  match s with
  | EmptyString => EmptyString
  | String b1 rest =>
      match rest with
      | String b2 s' =>
          if isCombiningMark b1 b2 then stripCombiningMarks s'
          else String b1 (stripCombiningMarks rest)
      | EmptyString => s
      end
  end.

(** [[a-z0-9]] *)
Definition isLowerAlnum (c : ascii) : bool :=
  ((97 <=? byte c)%N && (byte c <=? 122)%N)
  || ((48 <=? byte c)%N && (byte c <=? 57)%N).

(** [\s] among single bytes: tab, line feed, vertical tab, form feed,
    carriage return, space.  A multi-byte white-space character is turned
    into spaces by [replaceNonAlnum] and ends as the same single space once
    runs are collapsed. *)
Definition isSpace (c : ascii) : bool :=
  ((9 <=? byte c)%N && (byte c <=? 13)%N) || (byte c =? 32)%N.

(** [.replace(/[^a-z0-9\s]/g, ' ')] *)
Fixpoint replaceNonAlnum (s : string) : string :=
  match s with
  | EmptyString => EmptyString
  | String c s' =>
      String (if isLowerAlnum c || isSpace c then c else " "%char)
             (replaceNonAlnum s')
  end.

(** [.replace(/\s+/g, ' ')]; [inRun] tells that the previous character was
    white space. *)
Fixpoint collapseSpaces (inRun : bool) (s : string) : string :=
  match s with
  | EmptyString => EmptyString
  | String c s' =>
      if isSpace c then
        if inRun then collapseSpaces true s'
        else String " "%char (collapseSpaces true s')
      else String c (collapseSpaces false s')
  end.

Fixpoint trimStart (s : string) : string :=
  match s with
  | String c s' => if isSpace c then trimStart s' else s
  | EmptyString => EmptyString
  end.

Fixpoint trimEnd (s : string) : string :=
  match s with
  | EmptyString => EmptyString
  | String c s' =>
      match trimEnd s' with
      | EmptyString => if isSpace c then EmptyString else String c EmptyString
      | r => String c r
      end
  end.

Definition trim (s : string) : string := trimEnd (trimStart s).

Definition normalizeText `{JsText} (s : string) : string :=
  trim (collapseSpaces false (replaceNonAlnum
    (stripCombiningMarks (normalizeNFD (toLowerCase s))))).

(** [s || ''] *)
Definition orEmpty (s : option string) : string := default ""%string s.

(** A string is truthy when it is not empty. *)
Definition truthy (s : string) : bool :=
  match s with EmptyString => false | _ => true end.

Fixpoint startsWith (s t : string) : bool :=
  match t, s with
  | EmptyString, _ => true
  | String c t', String d s' => Ascii.eqb c d && startsWith s' t'
  | String _ _, EmptyString => false
  end.

(** [s.includes(t)] *)
Fixpoint includes (s t : string) : bool :=
  startsWith s t
  || match s with
     | EmptyString => false
     | String _ s' => includes s' t
     end.

(** [s.split(sep)] for a one-character separator; [cur] is the piece being
    read. *)
Fixpoint split_from (sep : ascii) (cur s : string) : list string :=
  match s with
  | EmptyString => [cur]
  | String c s' =>
      if Ascii.eqb c sep then cur :: split_from sep ""%string s'
      else split_from sep (cur +:+ String c EmptyString) s'
  end.

Definition split (sep : ascii) (s : string) : list string :=
  split_from sep ""%string s.

(** [xs.join(sep)] *)
Definition join (sep : string) (xs : list string) : string :=
  String.concat sep xs.

(** [Array.from(new Set(xs))]: first occurrences, in insertion order. *)
Definition uniq {A} `{EqDecision A} (xs : list A) : list A :=
  fold_left (λ acc x, if decide (x ∈ acc) then acc else acc ++ [x]) xs [].

(** ASCII text: lower-casing moves A-Z to a-z and NFD changes nothing. *)
Definition asciiLower (c : ascii) : ascii :=
  if ((65 <=? byte c)%N && (byte c <=? 90)%N)%bool
  then ascii_of_N (byte c + 32) else c.

Fixpoint mapString (f : ascii → ascii) (s : string) : string :=
  match s with
  | EmptyString => EmptyString
  | String c s' => String (f c) (mapString f s')
  end.

Definition asciiText : JsText :=
  {| toLowerCase := mapString asciiLower; normalizeNFD := λ s, s |}.

(** ** Random draws *)

Record Rng := { draws : nat → Qc; cursor : nat }.

Definition Rand (A : Type) : Type := Rng → A * Rng.

Definition ret {A} (a : A) : Rand A := λ g, (a, g).
Definition bind {A B} (m : Rand A) (k : A → Rand B) : Rand B :=
  λ g, let '(a, g') := m g in k a g'.

Notation "'let*' x ':=' m 'in' k" := (bind m (λ x, k))
  (at level 10, x name, m at level 100, k at level 200, only parsing).

(** [Math.random()] *)
Definition Math_random : Rand Qc :=
  λ g, (draws g (cursor g), {| draws := draws g; cursor := S (cursor g) |}).

(** [Math.random] yields a number in [0, 1). *)
Definition unit_draws (g : Rng) : Prop := ∀ n, 0 ≤ draws g n ∧ draws g n < 1.

(** ** Small helpers *)

Definition clamp01 (x : Qc) : Qc :=
  if decide (x < 0) then 0 else if decide (1 < x) then 1 else x.

Definition randUniform (min max : Qc) : Rand Qc :=
  let* r := Math_random in ret (min + r * (max - min)).

(** [choiceWeighted]; the chosen element is returned with its position, which
    is the position [indexOf] finds for it in an array of distinct objects. *)
Fixpoint choiceWeighted_scan {T} (r : Qc) (i : nat) (items : list T)
    (scores : list Qc) : option (nat * T) :=
  match items with
  | [] => None
  | it :: items' =>
      (* [scores[i]] is [undefined] past the end: [r] becomes NaN and no
         comparison holds *)
      match scores with
      | [] => None
      | s :: scores' =>
          let r' := r - s in
          if decide (r' ≤ 0) then Some (i, it)
          else choiceWeighted_scan r' (S i) items' scores'
      end
  end.

Definition lastWithIndex {T} (items : list T) : option (nat * T) :=
  match last items with
  | Some it => Some (pred (length items), it)
  | None => None
  end.

Definition choiceWeighted {T} (items : list T) (scores : list Qc)
    : Rand (option (nat * T)) :=
  let total := sum scores in
  if bool_decide (items = []) || bool_decide (total ≤ 0) then ret None
  else
    let* u := Math_random in
    let r := u * total in
    match choiceWeighted_scan r 0 items scores with
    | Some p => ret (Some p)
    | None => ret (lastWithIndex items)
    end.

Section Recommender.
Context `{JsText}.

(** ** Weight construction *)

Definition buildWeights (intent : PromptIntent) : ContextWeights :=
  let wColour0 : Colour → Qc := λ _, 0 in
  let wVibe0 : Vibe → Qc := λ _, 0 in
  let wFit0 : Fit → Qc := λ f,
    match f with regular => num 0.4 | _ => num 0.2 end in
  let wSport0 : Sport → Qc := λ _, 0 in
  (* hinted colours get 1.0; neutrals get a baseline without hints *)
  let wColour1 :=
    fold_left (λ w c, <[c := w c + num 1.0]> w) (colour_hints intent) wColour0 in
  let wColour2 :=
    if bool_decide (length (colour_hints intent) = 0%nat) then
      let w1 := <[black := wColour1 black + num 0.3]> wColour1 in
      let w2 := <[white := w1 white + num 0.3]> w1 in
      let w3 := <[grey := w2 grey + num 0.3]> w2 in
      <[beige := w3 beige + num 0.2]> w3
    else wColour1 in
  let wVibe1 :=
    fold_left (λ w v, <[v := w v + num 1.0]> w) (vibe_tags intent) wVibe0 in
  let wFit1 :=
    match fit_preference intent with
    | Some (prefer f) =>
        let flat := fold_left (λ w k, <[k := num 0.1]> w) fit_keys wFit0 in
        <[f := num 1.0]> flat
    | Some mixed | None =>
        let w1 := <[oversized := wFit0 oversized + num 0.2]> wFit0 in
        let w2 := <[slim := w1 slim + num 0.2]> w1 in
        <[regular := w2 regular + num 0.5]> w2
    end in
  let sports := [none; football; basketball; running; tennis; gym; other] in
  let wSport1 :=
    if bool_decide (sport_context intent ≠ none) then
      let zero := fold_left (λ w s, <[s := 0]> w) sports wSport0 in
      <[sport_context intent := num 1.0]> zero
    else wSport0 in
  let brandTokens := map normalizeText (brand_focus intent) in
  let teamTokens := map normalizeText (team_focus intent) in
  let specificTokensSet :=
    fold_left (λ set raw,
      let norm := normalizeText raw in
      if truthy norm then
        fold_left (λ set w,
          if truthy w then (if decide (w ∈ set) then set else set ++ [w])
          else set) (split " " norm) set
      else set) (specific_items intent) [] in
  {| wColour := wColour2; wVibe := wVibe1; wFit := wFit1; wSport := wSport1;
     brandTokens := brandTokens; teamTokens := teamTokens;
     sportContext := sport_context intent;
     specificTokens := specificTokensSet |}.

(** ** Single item scoring *)

Definition neutrals : list Colour := [black; white; grey; beige; brown].

Definition isNeutral (c : Colour) : bool := bool_decide (c ∈ neutrals).

Definition colourAlignment (item : IndexItem) (wColour : Colour → Qc) : Qc :=
  if bool_decide (colours item = []) then 0
  else
    let best := fold_left (λ best c, Math_max best (wColour c)) (colours item) 0 in
    let totalPref := sum (map wColour colour_keys) in
    let hasMatch := existsb (λ c, bool_decide (0 < wColour c)) (colours item) in
    let best :=
      if bool_decide (0 < totalPref) && negb hasMatch then best - num 0.5
      else best in
    let hasNeutral := existsb isNeutral (colours item) in
    if hasNeutral then
      let neutralWeight :=
        Math_max_list (wColour black) (map wColour [white; grey; beige; brown]) in
      best + num 0.2 * neutralWeight
    else best.

Definition vibeAlignment (item : IndexItem) (wVibe : Vibe → Qc) : Qc :=
  if bool_decide (vibes item = []) then 0
  else
    let score := fold_left (λ score v, score + wVibe v) (vibes item) 0 in
    let totalPref := sum (map wVibe vibe_keys) in
    let hasMatch := existsb (λ v, bool_decide (0 < wVibe v)) (vibes item) in
    if bool_decide (0 < totalPref) && negb hasMatch then score - num 0.3
    else score.

Definition fitAlignment (item : IndexItem) (wFit : Fit → Qc) : Qc :=
  wFit (default regular (fit item)).

(** [(item.entityMeta || []).map((e) => e.text).join(' ')] *)
Definition entityTexts (item : IndexItem) : string :=
  join " " (map text (entityMeta item)).

Definition brandAlignment (item : IndexItem) (brandTokens : list string) : Qc :=
  if bool_decide (brandTokens = []) then 0
  else
    let nameText :=
      normalizeText (orEmpty (name item)) +:+ " " +:+
      normalizeText (orEmpty (name_normalized item)) in
    let entText := normalizeText (entityTexts item) in
    fold_left (λ score t,
      if truthy t then
        let score := if includes nameText t then score + num 1.0 else score in
        if includes entText t then score + num 1.5 else score
      else score) brandTokens 0.

Definition sportAlignment (item : IndexItem) (wSport : Sport → Qc)
    (sportContext : Sport) : Qc :=
  let sport := sportOf item in
  let score := wSport sport in
  let score :=
    if bool_decide (0 < wSport sport) && isKitOf item then score + num 0.5
    else score in
  if bool_decide (sportContext = none) && bool_decide (sport ≠ none) then
    score - (if isKitOf item then num 0.7 else num 0.4)
  else score.

(** The text searched by [specificItemAlignment] and [countSpecificMatches]. *)
Definition specificText (item : IndexItem) : string :=
  normalizeText (orEmpty (name item)) +:+ " " +:+
  normalizeText (orEmpty (name_normalized item)) +:+ " " +:+
  normalizeText (imagePath item) +:+ " " +:+
  normalizeText (entityTexts item).

Definition specificItemAlignment (item : IndexItem)
    (specificTokens : list string) : Qc :=
  if bool_decide (specificTokens = []) then 0
  else
    let txt := specificText item in
    fold_left (λ score t,
      if truthy t then (if includes txt t then score + num 1.0 else score)
      else score) specificTokens 0.

Definition countSpecificMatches (item : IndexItem)
    (specificTokens : list string) : nat :=
  if bool_decide (specificTokens = []) then 0%nat
  else
    let txt := specificText item in
    fold_left (λ count t,
      if truthy t then (if includes txt t then S count else count)
      else count) specificTokens 0%nat.

Definition genericTeamText (item : IndexItem) : string :=
  normalizeText (orEmpty (name item)) +:+ " " +:+
  normalizeText (orEmpty (name_normalized item)) +:+ " " +:+
  normalizeText (imagePath item) +:+ " " +:+
  normalizeText (join " " (entities item)) +:+ " " +:+
  normalizeText (entityTexts item).

(** [x && (x.includes(t) || t.includes(x))] *)
Definition fuzzy (t x : string) : bool :=
  truthy x && (includes x t || includes t x).

Definition entityTeams (item : IndexItem) : list string :=
  map (λ e, normalizeText (text e))
      (List.filter (λ e, bool_decide (type e = team)) (entityMeta item)).

Definition teamAlignment (item : IndexItem) (teamTokens : list string) : Qc :=
  if bool_decide (teamTokens = []) then 0
  else
    let teams := map normalizeText (teamsOf item) in
    let entTeams := entityTeams item in
    let txt := genericTeamText item in
    fold_left (λ score t,
      if truthy t then
        let score := if existsb (fuzzy t) teams then score + num 1.5 else score in
        let score := if existsb (fuzzy t) entTeams then score + num 1.5 else score in
        if includes txt t then score + num 1.0 else score
      else score) teamTokens 0.

(** [WEIGHT_SINGLE] *)
Definition scoreSingleItem (item : IndexItem) (weights : ContextWeights) : Qc :=
  let c := colourAlignment item (wColour weights) in
  let v := vibeAlignment item (wVibe weights) in
  let f := fitAlignment item (wFit weights) in
  let b := brandAlignment item (brandTokens weights) in
  let s := sportAlignment item (wSport weights) (sportContext weights) in
  let t := teamAlignment item (teamTokens weights) in
  let sp := specificItemAlignment item (specificTokens weights) in
  num 1.0 * c + num 1.2 * v + num 0.8 * f + num 1.0 * b + num 1.0 * s
  + num 1.2 * t + num 1.5 * sp.

(** ** Pairwise compatibility *)

Definition ofNat (n : nat) : Qc := Q2Qc (inject_Z (Z.of_nat n)).

Definition pairColorCompatibility (a b : IndexItem) : Qc :=
  if bool_decide (colours a = []) || bool_decide (colours b = []) then 0
  else
    let score :=
      fold_left (λ score ca,
        fold_left (λ score cb,
          if bool_decide (ca = cb) then score + num 1.0
          else
            let isNeutralA := isNeutral ca in
            let isNeutralB := isNeutral cb in
            if isNeutralA && isNeutralB then score + num 0.6
            else if isNeutralA || isNeutralB then score + num 0.4
            else score) (colours b) score) (colours a) 0 in
    score / ofNat (length (colours a) * length (colours b)).

Definition pairVibeCompatibility (a b : IndexItem) : Qc :=
  let va := uniq (vibes a) in
  let vb := uniq (vibes b) in
  let shared :=
    fold_left (λ shared v, if bool_decide (v ∈ vb) then S shared else shared)
              va 0%nat in
  let has (s : list Vibe) (v : Vibe) := bool_decide (v ∈ s) in
  let bonus := 0 in
  let bonus :=
    if has va streetwear && has vb sporty then bonus + num 0.5 else bonus in
  let bonus :=
    if has va sporty && has vb streetwear then bonus + num 0.5 else bonus in
  let bonus :=
    if has va chic && has vb minimal then bonus + num 0.4 else bonus in
  let bonus :=
    if has va minimal && has vb chic then bonus + num 0.4 else bonus in
  ofNat shared + bonus.

(** The arguments are named as in the source: the first is the top, the
    second the bottom. *)
Definition pairFitCompatibility (top bottom : IndexItem) : Qc :=
  let ft := default regular (fit top) in
  let fb := default regular (fit bottom) in
  match ft, fb with
  | oversized, slim => num 1.3
  | oversized, regular => num 1.0
  | regular, slim => num 1.0
  | slim, slim => num 0.9
  | oversized, oversized => num 0.4
  | _, _ => num 0.5
  end.

Definition pairSportCompatibility (a b : IndexItem) (sportContext : Sport)
    : Qc :=
  let sa := sportOf a in
  let sb := sportOf b in
  if bool_decide (sportContext = none) then
    if bool_decide (sa = none) && bool_decide (sb = none) then 0
    else if bool_decide (sa ≠ none) && bool_decide (sb ≠ none) then - num 0.5
    else - num 0.2
  else if bool_decide (sa = none) || bool_decide (sb = none) then 0
  else if bool_decide (sa = sb) then num 1.0
  else num 0.2.

Definition pairTeamCompatibility (a b : IndexItem) : Qc :=
  let ta := map normalizeText (teamsOf a) in
  let tb := map normalizeText (teamsOf b) in
  if bool_decide (ta = []) || bool_decide (tb = []) then 0
  else if existsb (λ x, existsb (λ y,
            truthy x && truthy y
            && (String.eqb x y || includes x y || includes y x)) tb) ta
  then num 1.2
  else - num 0.3.

(** ** Candidate filtering *)

Definition genderCompatible (itemGender : Gender) (tg : TargetGender) : bool :=
  match tg with
  | any => true
  | target g =>
      if bool_decide (itemGender = unisex) then true
      else bool_decide (itemGender = g)
  end.

Definition hasBrandMatch (item : IndexItem) (brandTokens : list string) : bool :=
  if bool_decide (brandTokens = []) then false
  else
    let txt :=
      normalizeText (orEmpty (name item)) +:+ " " +:+
      normalizeText (orEmpty (name_normalized item)) +:+ " " +:+
      normalizeText (entityTexts item) in
    existsb (λ b, truthy b && includes txt b) brandTokens.

Definition hasTeamMatch (item : IndexItem) (teamTokens : list string) : bool :=
  if bool_decide (teamTokens = []) then false
  else
    let teams := map normalizeText (teamsOf item) in
    let entTeams := entityTeams item in
    let all := teams ++ entTeams in
    let txt := genericTeamText item in
    existsb (λ t, truthy t && (existsb (fuzzy t) all || includes txt t))
            teamTokens.

Definition sportMatches (item : IndexItem) (sport : Sport) : bool :=
  if bool_decide (sport = none) then true
  else bool_decide (sportOf item = sport).

Definition isSportRelevantForContext (item : IndexItem) (sportContext : Sport)
    (teamTokens : list string) : bool :=
  if bool_decide (sportContext = none) then false
  else if bool_decide (sportOf item = sportContext) then true
  else if hasTeamMatch item teamTokens then true
  else false.

Record Stage := {
  requireBrand : bool;
  requireTeam : bool;
  requireSportStrong : bool;
}.

Definition stages : list Stage :=
  [ {| requireBrand := true; requireTeam := true; requireSportStrong := true |};
    {| requireBrand := false; requireTeam := true; requireSportStrong := true |};
    {| requireBrand := false; requireTeam := false; requireSportStrong := true |};
    {| requireBrand := false; requireTeam := false; requireSportStrong := false |} ].

Definition nonEmpty {A} (l : list A) : bool :=
  match l with [] => false | _ => true end.

(** The body of the stage loop up to the specific-item step: the gender,
    sport, brand and team filters of one stage. *)
Definition stageFilters (base : list IndexItem) (intent : PromptIntent)
    (weights : ContextWeights) (stage : Stage) : list IndexItem :=
  let pool :=
    List.filter (λ it, genderCompatible (gender it) (target_gender intent))
                base in
  let pool :=
    if requireSportStrong stage then
      if bool_decide (sport_context intent ≠ none) then
        List.filter (λ it, isSportRelevantForContext it (sport_context intent)
                             (teamTokens weights)) pool
      else
        let nonSport :=
          List.filter (λ it, bool_decide (sportOf it = none)) pool in
        if nonEmpty nonSport then nonSport else pool
    else pool in
  let pool :=
    if requireBrand stage && nonEmpty (brandTokens weights) then
      List.filter (λ it, hasBrandMatch it (brandTokens weights)) pool
    else pool in
  if requireTeam stage && nonEmpty (teamTokens weights) then
    List.filter (λ it, hasTeamMatch it (teamTokens weights)) pool
  else pool.

(** The specific-item step of the stage loop: keep the items that match the
    highest number of specific tokens. *)
Definition keepBestSpecific (weights : ContextWeights) (pool : list IndexItem)
    : list IndexItem :=
  if nonEmpty (specificTokens weights) && nonEmpty pool then
    let counted :=
      map (λ it, (it, countSpecificMatches it (specificTokens weights))) pool in
    let maxMatches := max_list (map snd counted) in
    if bool_decide (0 < maxMatches)%nat then
      map fst (List.filter (λ c, bool_decide (snd c = maxMatches)) counted)
    else pool
  else pool.

(** The pool one stage produces. *)
Definition stagePool (base : list IndexItem) (intent : PromptIntent)
    (weights : ContextWeights) (stage : Stage) : list IndexItem :=
  keepBestSpecific weights (stageFilters base intent weights stage).

(** [for (const stage of stages) { ...; if (pool.length) return pool; }
    return base;] *)
Fixpoint firstNonEmptyStage (todo : list Stage) (base : list IndexItem)
    (intent : PromptIntent) (weights : ContextWeights) : list IndexItem :=
  match todo with
  | [] => base
  | stage :: todo' =>
      let pool := stagePool base intent weights stage in
      if nonEmpty pool then pool
      else firstNonEmptyStage todo' base intent weights
  end.

(** The items of the role, narrowed to the sport-relevant ones when the
    intent has a sport context and there are any. *)
Definition roleBase (items : list IndexItem) (category' : CategoryMain)
    (intent : PromptIntent) (weights : ContextWeights) : list IndexItem :=
  let base := List.filter (λ it, bool_decide (category it = category')) items in
  if bool_decide (sport_context intent ≠ none) then
    let sporty :=
      List.filter (λ it, isSportRelevantForContext it (sport_context intent)
                           (teamTokens weights)) base in
    if nonEmpty sporty then sporty else base
  else base.

Definition filterCandidatesForRole (items : list IndexItem)
    (category' : CategoryMain) (intent : PromptIntent)
    (weights : ContextWeights) : list IndexItem :=
  let base := roleBase items category' intent weights in
  firstNonEmptyStage stages base intent weights.

(** ** Outfit assembly *)

(** The keys are those of the source, [top], [bottom], [shoes], [mono]. *)
Record Outfit := {
  slot_top : option IndexItem;
  slot_bottom : option IndexItem;
  slot_shoes : option IndexItem;
  slot_mono : option IndexItem;
}.

(** [outfit[key]] *)
Definition slot (o : Outfit) (key : CategoryMain) : option IndexItem :=
  match key with
  | top => slot_top o
  | bottom => slot_bottom o
  | shoes => slot_shoes o
  | mono => slot_mono o
  end.

Definition noOutfit : Outfit :=
  {| slot_top := None; slot_bottom := None; slot_shoes := None;
     slot_mono := None |}.

(** [{ [cat]: it }] *)
Definition oneSlot (cat : CategoryMain) (it : IndexItem) : Outfit :=
  match cat with
  | top => {| slot_top := Some it; slot_bottom := None; slot_shoes := None;
              slot_mono := None |}
  | bottom => {| slot_top := None; slot_bottom := Some it; slot_shoes := None;
                 slot_mono := None |}
  | shoes => {| slot_top := None; slot_bottom := None; slot_shoes := Some it;
                slot_mono := None |}
  | mono => {| slot_top := None; slot_bottom := None; slot_shoes := None;
               slot_mono := Some it |}
  end.

Definition roleOrder : list CategoryMain := [top; bottom; shoes; mono].

(** The pair terms shared by every pair of roles ([WEIGHT_PAIR] without the
    fit term). *)
Definition pairTerms (a b : IndexItem) (weights : ContextWeights) : Qc :=
  let c := pairColorCompatibility a b in
  let v := pairVibeCompatibility a b in
  let s := pairSportCompatibility a b (sportContext weights) in
  let t := pairTeamCompatibility a b in
  num 0.6 * c + num 0.9 * v + num 0.8 * s + num 1.0 * t.

Definition scoreOutfit (o : Outfit) (singleScores : gmap string Qc)
    (weights : ContextWeights) : Qc :=
  let score :=
    fold_left (λ score key,
      match slot o key with
      | Some it => score + default 0 (singleScores !! id it)
      | None => score
      end) roleOrder 0 in
  let score :=
    match slot_top o, slot_bottom o with
    | Some t, Some b =>
        let c := pairColorCompatibility t b in
        let v := pairVibeCompatibility t b in
        let f := pairFitCompatibility t b in
        let s := pairSportCompatibility t b (sportContext weights) in
        let tm := pairTeamCompatibility t b in
        score + (num 0.6 * c + num 0.9 * v + num 0.7 * f + num 0.8 * s
                 + num 1.0 * tm)
    | _, _ => score
    end in
  let score :=
    match slot_top o, slot_shoes o with
    | Some t, Some sh => score + pairTerms t sh weights
    | _, _ => score
    end in
  let score :=
    match slot_bottom o, slot_shoes o with
    | Some b, Some sh => score + pairTerms b sh weights
    | _, _ => score
    end in
  match slot_mono o, slot_shoes o with
  | Some m, Some sh => score + pairTerms m sh weights
  | _, _ => score
  end.

(** An entry [{ outfit, score }] of the arrays [outfits], [topBand] and
    [chosen]. *)
Record Candidate := { cand_outfit : Outfit; cand_score : Qc }.

(** [xs.sort((a, b) => score(b) - score(a))]: descending, and stable as
    [Array.prototype.sort] is. *)
Fixpoint insertByScore {A} (score : A → Qc) (x : A) (l : list A) : list A :=
  match l with
  | [] => [x]
  | y :: l' =>
      if decide (score x < score y) then y :: insertByScore score x l'
      else x :: l
  end.

Definition sortByScore {A} (score : A → Qc) (l : list A) : list A :=
  foldr (insertByScore score) [] l.

Record Options := {
  pool_size : nat;
  per_role_limit : nat;
  epsilon : Qc;
  jitter : Qc;
}.

(** [candidatesByCat] after the loop over [requiredCats]. *)
Definition candidatesByCat (items : list IndexItem) (intent : PromptIntent)
    (weights : ContextWeights) (perRoleLimit : nat)
    (requiredCats : list CategoryMain) : CategoryMain → list IndexItem :=
  fold_left (λ byCat cat,
    let pool := filterCandidatesForRole items cat intent weights in
    let scored := map (λ it, (it, scoreSingleItem it weights)) pool in
    let scored := sortByScore snd scored in
    let limited := map fst (take perRoleLimit scored) in
    <[cat := limited]> byCat) requiredCats (λ _, []).

(** [singleScores]: a later item overwrites an earlier one of the same id. *)
Definition buildSingleScores (items : list IndexItem)
    (weights : ContextWeights) : gmap string Qc :=
  fold_left (λ m it, <[id it := scoreSingleItem it weights]> m) items ∅.

(** A loop whose body pushes onto the one array [outfits]. *)
Fixpoint forEach {A B} (xs : list A) (body : A → Rand (list B))
    : Rand (list B) :=
  match xs with
  | [] => ret []
  | x :: xs' =>
      let* pushed := body x in
      let* rest := forEach xs' body in
      ret (pushed ++ rest)
  end.

(** [s += randUniform(-jitter, jitter); outfits.push({ outfit, score: s })] *)
Definition pushJittered (o : Outfit) (s : Qc) (jitter : Qc)
    : Rand (list Candidate) :=
  let* j := randUniform (- jitter) jitter in
  ret [ {| cand_outfit := o; cand_score := s + j |} ].

Definition assemble (requiredCats : list CategoryMain)
    (byCat : CategoryMain → list IndexItem) (isOutfit : bool)
    (singleScores : gmap string Qc) (weights : ContextWeights) (jitter : Qc)
    : Rand (list Candidate) :=
  let scored (o : Outfit) :=
    pushJittered o (scoreOutfit o singleScores weights) jitter in
  if isOutfit then
    let tops := byCat top in
    let bottoms := byCat bottom in
    let shoes' := byCat shoes in
    let monos := byCat mono in
    let useShoes := bool_decide (shoes ∈ requiredCats) in
    if bool_decide (mono ∈ requiredCats) then
      forEach monos (λ m,
        if useShoes && nonEmpty shoes' then
          forEach shoes' (λ sh,
            scored {| slot_top := None; slot_bottom := None;
                      slot_shoes := Some sh; slot_mono := Some m |})
        else
          scored {| slot_top := None; slot_bottom := None;
                    slot_shoes := None; slot_mono := Some m |})
    else
      forEach tops (λ t,
        forEach bottoms (λ b,
          if useShoes && nonEmpty shoes' then
            forEach shoes' (λ sh,
              scored {| slot_top := Some t; slot_bottom := Some b;
                        slot_shoes := Some sh; slot_mono := None |})
          else
            scored {| slot_top := Some t; slot_bottom := Some b;
                      slot_shoes := None; slot_mono := None |}))
  else
    forEach requiredCats (λ cat,
      forEach (byCat cat) (λ it,
        pushJittered (oneSlot cat it) (default 0 (singleScores !! id it))
                     jitter)).

(** ** Ranking and diversity sampling *)

(** [ids.sort()]: the default order of strings, here on bytes. *)
Fixpoint insertString (x : string) (l : list string) : list string :=
  match l with
  | [] => [x]
  | y :: l' => if String.ltb y x then y :: insertString x l' else x :: l
  end.

Definition sortStrings (l : list string) : list string :=
  foldr insertString [] l.

(** The ids of the populated roles, sorted and joined by a bar. *)
Definition signature (o : Outfit) : string :=
  let ids := omap (λ key, id <$> slot o key) roleOrder in
  join "|" (sortStrings ids).

Definition sigOf (c : Candidate) : string := signature (cand_outfit c).

(** The three variables of the sampling loop. *)
Record Sampler := {
  chosen : list Candidate;
  usedIds : gset string;
  topBand : list Candidate;
}.

(** One turn of the loop on a band whose first entry is [first].  The pick is
    kept with its position in the band: the entries of [topBand] are distinct
    objects, so [topBand.indexOf(pick)] is that position.  The band is not
    empty, so [pick] is never null and the [break] is not taken. *)
Definition sampleStep (epsilon : Qc) (st : Sampler) (first : Candidate)
    : Rand Sampler :=
  let* u := Math_random in
  let* pick :=
    if decide (u < epsilon) then
      let minScore := cand_score (List.last (topBand st) first) in
      let scores :=
        map (λ o, Math_max (num 0.0001) (cand_score o - minScore + num 0.001))
            (topBand st) in
      let* selected := choiceWeighted (topBand st) scores in
      ret (default (0%nat, first) selected)
    else ret (0%nat, first) in
  let '(idx, pick) := pick in
  let sig := sigOf pick in
  let '(chosen', usedIds') :=
    if decide (sig ∈ usedIds st) then (chosen st, usedIds st)
    else (chosen st ++ [pick], {[sig]} ∪ usedIds st) in
  ret {| chosen := chosen'; usedIds := usedIds';
         topBand := delete idx (topBand st) |}.

(** [while (chosen.length < poolSize && topBand.length) { ... }]; every turn
    removes one entry of the band, so [fuel] turns are enough when [fuel] is
    the length of the band (lemma [sampleLoop_exits]). *)
Fixpoint sampleLoop (fuel : nat) (poolSize : nat) (epsilon : Qc)
    (st : Sampler) : Rand Sampler :=
  match fuel with
  | O => ret st
  | S fuel' =>
      if bool_decide (length (chosen st) < poolSize)%nat then
        match topBand st with
        | [] => ret st
        | first :: _ =>
            let* st' := sampleStep epsilon st first in
            sampleLoop fuel' poolSize epsilon st'
        end
      else ret st
  end.

(** The loop condition. *)
Definition sampling (poolSize : nat) (st : Sampler) : bool :=
  bool_decide (length (chosen st) < poolSize)%nat && nonEmpty (topBand st).

(** [outfits.slice(0, Math.max(poolSize * 3, poolSize))] *)
Definition bandOf (poolSize : nat) (sorted : list Candidate) : list Candidate :=
  take (Nat.max (poolSize * 3) poolSize) sorted.

(** Ranking and sampling of the scored candidates: the sort, the band and the
    loop of [main]. *)
Definition diversitySample (outfits : list Candidate) (poolSize : nat)
    (epsilon : Qc) : Rand Sampler :=
  let sorted := sortByScore cand_score outfits in
  let band := bandOf poolSize sorted in
  sampleLoop (length band) poolSize epsilon
             {| chosen := []; usedIds := ∅; topBand := band |}.

(** ** Intent repair and the main pipeline *)

(** The repair of the oracle's intent by the heuristic one in [main];
    [oracle] is [None] when the oracle gave nothing usable. *)
Definition mergeIntent (oracle : option PromptIntent)
    (heuristicIntent : PromptIntent) : PromptIntent :=
  let intent := default heuristicIntent oracle in
  if bool_decide (length (required_categories intent) = 0%nat) then
    {| outfit_mode :=
         match outfit_mode intent with
         | None => outfit_mode heuristicIntent
         | Some m => Some m
         end;
       requested_form :=
         match requested_form intent with
         | None => requested_form heuristicIntent
         | Some f => Some f
         end;
       required_categories := required_categories heuristicIntent;
       optional_categories := optional_categories intent;
       target_gender := target_gender intent;
       vibe_tags := vibe_tags intent;
       colour_hints := colour_hints intent;
       brand_focus := brand_focus intent;
       team_focus := team_focus intent;
       sport_context := sport_context intent;
       fit_preference := fit_preference intent;
       specific_items := specific_items intent |}
  else
    let gemCats := uniq (required_categories intent) in
    let heurCats := uniq (required_categories heuristicIntent) in
    let gemIsOutfit := bool_decide (outfit_mode intent = Some outfit) in
    let heurIsOutfit := bool_decide (outfit_mode heuristicIntent = Some outfit) in
    if gemIsOutfit && heurIsOutfit
       && bool_decide (length gemCats < length heurCats)%nat then
      {| outfit_mode := outfit_mode intent;
         requested_form := requested_form heuristicIntent;
         required_categories := required_categories heuristicIntent;
         optional_categories := optional_categories intent;
         target_gender := target_gender intent;
         vibe_tags := vibe_tags intent;
         colour_hints := colour_hints intent;
         brand_focus := brand_focus intent;
         team_focus := team_focus intent;
         sport_context := sport_context intent;
         fit_preference := fit_preference intent;
         specific_items := specific_items intent |}
    else intent.

(** [const epsilon = clamp01(argv.epsilon as number)] *)
Definition effectiveEpsilon (opts : Options) : Qc := clamp01 (epsilon opts).

(** [main] from the resolved intent on: [None] is the exit with status 1
    when nothing could be assembled, otherwise the entries of [chosen]. *)
Definition recommend (items : list IndexItem) (intent : PromptIntent)
    (opts : Options) : Rand (option (list Candidate)) :=
  let weights := buildWeights intent in
  let requiredCats := uniq (required_categories intent) in
  let byCat :=
    candidatesByCat items intent weights (per_role_limit opts) requiredCats in
  let singleScores := buildSingleScores items weights in
  let epsilon' := effectiveEpsilon opts in
  let isOutfit :=
    bool_decide (outfit_mode intent = Some outfit)
    && bool_decide (1 < length requiredCats)%nat in
  let* outfits :=
    assemble requiredCats byCat isOutfit singleScores weights (jitter opts) in
  if nonEmpty outfits then
    let* final := diversitySample outfits (pool_size opts) epsilon' in
    ret (Some (chosen final))
  else ret None.

Definition roleName (cat : CategoryMain) : string :=
  match cat with
  | top => "top" | bottom => "bottom" | shoes => "shoes" | mono => "mono"
  end.

(** The lines printed for one result, [`${cat} ${it.imagePath}`] in role
    order. *)
Definition outfitLines (o : Outfit) : list string :=
  omap (λ cat, (λ it, roleName cat +:+ " " +:+ imagePath it) <$> slot o cat)
       roleOrder.

(** The lines printed for all results, an empty line between two results. *)
Fixpoint render (results : list Candidate) : list string :=
  match results with
  | [] => []
  | [c] => outfitLines (cand_outfit c)
  | c :: rest => outfitLines (cand_outfit c) ++ [""%string] ++ render rest
  end.

(** ** Heuristic fallback intent *)

(** The [--gender_pref] choices ['any', 'men', 'women']. *)
Inductive GenderPref := pref_any | pref_men | pref_women.

(** [has(...ks)] of [guessIntentHeuristic], on the normalised prompt [p]. *)
Definition has (p : string) (ks : list string) : bool :=
  existsb (λ k, includes p k) ks.

(** The chain of [if (requested_form === ...) required_categories.push(...)];
    no branch handles [top_bottom]. *)
Definition formCategories (form : OutfitForm) : list CategoryMain :=
  match form with
  | top_bottom_shoes => [top; bottom; shoes]
  | mono_only => [mono]
  | top_only => [top]
  | bottom_only => [bottom]
  | shoes_only => [shoes]
  | mono_and_shoes => [mono; shoes]
  | top_bottom => []
  end.

Definition guessIntentHeuristic (prompt : string) (genderPref : GenderPref)
    : PromptIntent :=
  let p := normalizeText prompt in
  let has := has p in
  let outfitMode :=
    if has ["fit"; "outfit"; "look"] || has ["top and bottom"; "top bottom"]
    then outfit else single in
  let requested_form :=
    match outfitMode with
    | single =>
        if has ["shoes"; "boots"; "sneakers"; "trainers"] then shoes_only
        else if has ["pants"; "jeans"; "trousers"; "bottom"] then bottom_only
        else top_only
    | outfit =>
        if has ["dress"; "gown"; "slip dress"] then mono_only
        else top_bottom_shoes
    end in
  let required_categories := formCategories requested_form in
  let sport_context :=
    if has ["football"; "soccer"; "kit"; "matchday"] then football
    else if has ["basketball"; "nba"] then basketball
    else if has ["gym"; "workout"; "training"] then gym
    else if has ["running"; "runner"] then running
    else if has ["tennis"] then tennis
    else none in
  let push (b : bool) (v : Vibe) (tags : list Vibe) :=
    if b then tags ++ [v] else tags in
  let vibe_tags := [] in
  let vibe_tags :=
    push (has ["streetwear"; "street"; "trap"; "hoodie"; "cargo"; "graphic";
               "hype"]) streetwear vibe_tags in
  let vibe_tags :=
    push (has ["grunge"; "goth"; "rock"; "punk"; "dark"; "leather"]) edgy
         vibe_tags in
  let vibe_tags :=
    push (has ["minimal"; "clean"; "basic"; "essentials"; "capsule";
               "neutral"]) minimal vibe_tags in
  let vibe_tags := push (has ["y2k"; "2000"]) y2k vibe_tags in
  let vibe_tags :=
    push (has ["preppy"; "college"; "ivy"; "varsity"; "polo"]) preppy
         vibe_tags in
  let vibe_tags :=
    push (has ["vintage"; "retro"; "oldschool"]) vintage vibe_tags in
  let vibe_tags :=
    push (has ["chic"; "elegant"; "slip dress"; "silk"; "satin"]) chic
         vibe_tags in
  let vibe_tags :=
    push (bool_decide (sport_context ≠ none)) sporty vibe_tags in
  let fit_preference :=
    if has ["baggy"; "oversized"; "huge"; "boxy"] then Some oversized
    else if has ["skinny"; "tight"; "slim"] then Some slim
    else if has ["cropped"] then Some cropped
    else None in
  {| outfit_mode := Some outfitMode;
     requested_form := Some requested_form;
     required_categories := required_categories;
     optional_categories := [];
     target_gender :=
       match genderPref with
       | pref_any => any
       | pref_men => target men
       | pref_women => target women
       end;
     vibe_tags := take 3 (uniq vibe_tags);
     colour_hints := [];
     brand_focus := [];
     team_focus := [];
     sport_context := sport_context;
     fit_preference :=
       match fit_preference with
       | Some f => Some (prefer f)
       | None => Some mixed
       end;
     specific_items := [] |}.

(** The intent [main] builds its weights from; [oracle] is what
    [getIntentFromGemini] returned. *)
Definition resolveIntent (prompt : string) (genderPref : GenderPref)
    (oracle : option PromptIntent) : PromptIntent :=
  mergeIntent oracle (guessIntentHeuristic prompt genderPref).

(** ** Text helpers of [lib/text.ts] *)

Definition rmDiacritics (s : string) : string :=
  stripCombiningMarks (normalizeNFD s).

Definition normLoose (value : string) : string :=
  trim (collapseSpaces false (replaceNonAlnum (rmDiacritics (toLowerCase value)))).

Definition STOP : list string :=
  ["fc"; "cf"; "club"; "the"; "of"; "and"; "de"; "ac"; "sc"; "bc"; "sa";
   "afc"; "cfm"]%string.

(** [w[0]] as a string; the empty string for an empty word. *)
Definition firstChar (w : string) : string :=
  match w with
  | String c _ => String c EmptyString
  | EmptyString => EmptyString
  end.

Definition acronym (value : string) : string :=
  let words := List.filter truthy (split " " (normLoose value)) in
  if bool_decide (length words < 2)%nat then ""%string
  else
    let filtered := List.filter (λ w, negb (bool_decide (w ∈ STOP))) words in
    let pick := if nonEmpty filtered then filtered else words in
    join "" (map firstChar pick).

(** The set [out] is kept as the list of its members in insertion order. *)
Definition aliases (raw : string) : list string :=
  let base := normLoose raw in
  if truthy base then
    let tokens := List.filter truthy (split " " base) in
    let acr := acronym base in
    let out := uniq (base :: tokens) in
    let add (x : string) (out : list string) :=
      if decide (x ∈ out) then out else out ++ [x] in
    let out :=
      if bool_decide (2 ≤ String.length acr)%nat then add acr out else out in
    if bool_decide (2 ≤ length tokens)%nat then add (join "" tokens) out
    else out
  else [].

(** ** Definitions used to state the properties *)

(** The entries [assemble] pushes, in its order, each with its score before
    the jitter is added. *)
Definition rawCandidates (requiredCats : list CategoryMain)
    (byCat : CategoryMain → list IndexItem) (isOutfit : bool)
    (singleScores : gmap string Qc) (weights : ContextWeights)
    : list Candidate :=
  let scored (o : Outfit) :=
    [ {| cand_outfit := o;
         cand_score := scoreOutfit o singleScores weights |} ] in
  if isOutfit then
    let useShoes := bool_decide (shoes ∈ requiredCats) in
    if bool_decide (mono ∈ requiredCats) then
      flat_map (λ m,
        if useShoes && nonEmpty (byCat shoes) then
          flat_map (λ sh,
            scored {| slot_top := None; slot_bottom := None;
                      slot_shoes := Some sh; slot_mono := Some m |})
            (byCat shoes)
        else
          scored {| slot_top := None; slot_bottom := None;
                    slot_shoes := None; slot_mono := Some m |}) (byCat mono)
    else
      flat_map (λ t,
        flat_map (λ b,
          if useShoes && nonEmpty (byCat shoes) then
            flat_map (λ sh,
              scored {| slot_top := Some t; slot_bottom := Some b;
                        slot_shoes := Some sh; slot_mono := None |})
              (byCat shoes)
          else
            scored {| slot_top := Some t; slot_bottom := Some b;
                      slot_shoes := None; slot_mono := None |}) (byCat bottom))
        (byCat top)
  else
    flat_map (λ cat,
      flat_map (λ it,
        [ {| cand_outfit := oneSlot cat it;
             cand_score := default 0 (singleScores !! id it) |} ])
        (byCat cat)) requiredCats.

(** The candidates of a request with their unperturbed scores. *)
Definition unperturbedCandidates (items : list IndexItem)
    (intent : PromptIntent) (opts : Options) : list Candidate :=
  let weights := buildWeights intent in
  let requiredCats := uniq (required_categories intent) in
  let byCat :=
    candidatesByCat items intent weights (per_role_limit opts) requiredCats in
  let singleScores := buildSingleScores items weights in
  let isOutfit :=
    bool_decide (outfit_mode intent = Some outfit)
    && bool_decide (1 < length requiredCats)%nat in
  rawCandidates requiredCats byCat isOutfit singleScores weights.

End Recommender.

(** ** The colour table of the indexer *)

(** [CANON] *)
Definition CANON (c : Colour) : Qc * Qc * Qc :=
  match c with
  | black => (num 20, num 20, num 20)
  | white => (num 235, num 235, num 235)
  | grey => (num 128, num 128, num 128)
  | red => (num 200, num 30, num 30)
  | blue => (num 40, num 80, num 200)
  | green => (num 40, num 160, num 80)
  | beige => (num 220, num 205, num 180)
  | brown => (num 120, num 80, num 40)
  | pink => (num 230, num 150, num 190)
  | yellow => (num 230, num 210, num 40)
  | purple => (num 140, num 80, num 180)
  end.

(** [(c[0]-r)**2 + (c[1]-g)**2 + (c[2]-b)**2] *)
Definition canonDistance (c : Colour) (rgb : Qc * Qc * Qc) : Qc :=
  let '(cr, cg, cb) := CANON c in
  let '(r, g, b) := rgb in
  (cr - r) * (cr - r) + (cg - g) * (cg - g) + (cb - b) * (cb - b).

(** [nearestCanon]: [bestD] starts at [Infinity], here [None]. *)
Definition nearestCanon (rgb : Qc * Qc * Qc) : Colour :=
  fst (fold_left (λ (acc : Colour * option Qc) name,
         let d := canonDistance name rgb in
         match snd acc with
         | None => (name, Some d)
         | Some bestD => if decide (d < bestD) then (name, Some d) else acc
         end) colour_keys (black, None)).

(** ** The colour-pair term on binary64 numbers *)

(** [pairColorCompatibility] as the runtime computes it: [score] is a
    binary64 number, every [+=] rounds, and the addends are met in the order
    of the two loops. *)
Module Double.
Import PrimFloat.

(** An array length as a number (array lengths are below 2^32). *)
Definition ofNat (n : nat) : float := of_uint63 (Uint63.of_Z (Z.of_nat n)).

Definition pairColorCompatibility (a b : IndexItem) : float :=
  if bool_decide (colours a = []) || bool_decide (colours b = []) then 0%float
  else
    let score :=
      fold_left (λ score ca,
        fold_left (λ score cb,
          if bool_decide (ca = cb) then (score + 1.0)%float
          else
            let isNeutralA := isNeutral ca in
            let isNeutralB := isNeutral cb in
            if isNeutralA && isNeutralB then (score + 0.6)%float
            else if isNeutralA || isNeutralB then (score + 0.4)%float
            else score) (colours b) score) (colours a) 0%float in
    (score / (ofNat (length (colours a)) * ofNat (length (colours b))))%float.

(** What one pair of colours adds to the score, if anything. *)
Definition colourPairAddend (ca cb : Colour) : option float :=
  if bool_decide (ca = cb) then Some 1.0%float
  else if isNeutral ca && isNeutral cb then Some 0.6%float
  else if isNeutral ca || isNeutral cb then Some 0.4%float
  else None.

(** The addends of the double loop over two colour lists, in the order in
    which the loop meets them. *)
Definition addends (xs ys : list Colour) : list float :=
  flat_map (λ ca, flat_map (λ cb, option_list (colourPairAddend ca cb)) ys) xs.

(** The addends added one after the other, from 0. *)
Definition total (terms : list float) : float := fold_left add terms 0%float.

End Double.

(** The entries of a band whose signature no earlier entry has, [used] being
    the signatures already taken. *)
Fixpoint distinctBySignature (used : gset string) (band : list Candidate)
    : list Candidate :=
  match band with
  | [] => []
  | c :: band' =>
      if decide (sigOf c ∈ used) then distinctBySignature used band'
      else c :: distinctBySignature ({[sigOf c]} ∪ used) band'
  end.

(** The state of the sampler after a turn that picked the band entry [pick]
    at position [idx]. *)
Definition afterPick (st : Sampler) (idx : nat) (pick : Candidate) : Sampler :=
  if decide (sigOf pick ∈ usedIds st) then
    {| chosen := chosen st; usedIds := usedIds st;
       topBand := delete idx (topBand st) |}
  else
    {| chosen := chosen st ++ [pick]; usedIds := {[sigOf pick]} ∪ usedIds st;
       topBand := delete idx (topBand st) |}.

(** What every turn of the sampling loop keeps true. *)
Record samplerInv (poolSize bandSize : nat) (st : Sampler) : Prop := {
  inv_distinct : NoDup (sigOf <$> chosen st);
  inv_used : ∀ s, s ∈ usedIds st ↔ s ∈ sigOf <$> chosen st;
  inv_count : (length (chosen st) ≤ poolSize)%nat;
  inv_band : (length (chosen st) + length (topBand st) ≤ bandSize)%nat;
}.

(** A computation that only moves the cursor of the stream of draws. *)
Definition keepsDraws {A} (m : Rand A) : Prop := ∀ g, draws (m g).2 = draws g.

(** A list in descending order of score. *)
Definition descending {A} (score : A → Qc) (l : list A) : Prop :=
  StronglySorted (λ a b, score b ≤ score a) l.

(** What one pair of colours adds to the score of [pairColorCompatibility]. *)
Definition colourPairTerm (ca cb : Colour) : Qc :=
  if bool_decide (ca = cb) then num 1.0
  else if isNeutral ca && isNeutral cb then num 0.6
  else if isNeutral ca || isNeutral cb then num 0.4
  else 0.

(** The double loop over two colour lists, from the score [s]. *)
Definition pairSum (f : Colour → Colour → Qc) (xs ys : list Colour) (s : Qc)
    : Qc :=
  fold_left (λ s x, fold_left (λ s y, s + f x y) ys s) xs s.

(** A clamp to the interval from [lo] to [hi]. *)
Definition clampTo (lo hi x : Qc) : Qc :=
  if decide (x < lo) then lo else if decide (hi < x) then hi else x.

(** The item with its fit replaced. *)
Definition withFit (f : Fit) (it : IndexItem) : IndexItem :=
  {| id := id it; imagePath := imagePath it; category := category it;
     sub := sub it; colours := colours it; vibes := vibes it;
     gender := gender it; fit := Some f; sportMeta := sportMeta it;
     name := name it; name_normalized := name_normalized it;
     entities := entities it; entityMeta := entityMeta it |}.

(** ** Example data *)

Definition plainItem (i : string) (cat : CategoryMain) (cols : list Colour)
    (g : Gender) (nm : option string) (sm : option SportMeta) : IndexItem :=
  {| id := i; imagePath := ("img/" +:+ i)%string; category := cat; sub := None;
     colours := cols; vibes := []; gender := g; fit := None; sportMeta := sm;
     name := nm; name_normalized := None; entities := []; entityMeta := [] |}.

Definition plainIntent (mode : Mode) (cats : list CategoryMain)
    (tg : TargetGender) (sp : Sport) (brands specifics : list string)
    : PromptIntent :=
  {| outfit_mode := Some mode; requested_form := None;
     required_categories := cats; optional_categories := [];
     target_gender := tg; vibe_tags := []; colour_hints := [];
     brand_focus := brands; team_focus := []; sport_context := sp;
     fit_preference := None; specific_items := specifics |}.

(** A stream whose every draw is 0. *)
Definition zeroDraws : Rng := {| draws := λ _, 0; cursor := 0 |}.

(** Two women's tops, one of them a football shirt, for a men's football
    request. *)
Definition footballShirt : IndexItem :=
  plainItem "shirt.jpg" top [blue] women None
    (Some {| sport := Some football; teams := []; isKit := false |}).
Definition plainTee : IndexItem :=
  plainItem "tee.jpg" top [white] women None None.
Definition womenTops : list IndexItem := [footballShirt; plainTee].
Definition menFootball : PromptIntent :=
  plainIntent single [top] (target men) football [] [].


(** Two tops and two bottoms alike in all but their ids; the ids are
    pairwise distinct and two of the four outfits have one signature. *)
Definition barCatalog : list IndexItem :=
  [ plainItem "a" top [black] unisex None None;
    plainItem "a|b" top [black] unisex None None;
    plainItem "b|c" bottom [black] unisex None None;
    plainItem "c" bottom [black] unisex None None ].
Definition topAndBottom : PromptIntent :=
  plainIntent outfit [top; bottom] any none [] [].

(** The same catalog with ids that hold no bar. *)
Definition plainCatalog : list IndexItem :=
  [ plainItem "a" top [black] unisex None None;
    plainItem "ab" top [black] unisex None None;
    plainItem "bc" bottom [black] unisex None None;
    plainItem "c" bottom [black] unisex None None ].

(** The ids of the populated roles of an outfit, in the order of the roles. *)
Definition outfitIds (o : Outfit) : list string :=
  omap (λ key, id <$> slot o key) roleOrder.

(** Items of two colours and of one colour, for the colour-pair term. *)
Definition blackRed : IndexItem :=
  plainItem "br.jpg" top [black; red] unisex None None.
Definition redBlue : IndexItem :=
  plainItem "rb.jpg" bottom [red; blue] unisex None None.
Definition blackOnly : IndexItem :=
  plainItem "k.jpg" top [black] unisex None None.
Definition greedyOptions (n : nat) : Options :=
  {| pool_size := n; per_role_limit := 12; epsilon := 0; jitter := 0 |}.

(** A red top, for a request without colour hints. *)
Definition redTop : IndexItem := plainItem "red.jpg" top [red] unisex None None.
Definition noColourHints : PromptIntent :=
  plainIntent single [top] any none [] [].

(** Options with a diversity factor of 0.8. *)
Definition wideOptions : Options :=
  {| pool_size := 6; per_role_limit := 12; epsilon := num 0.8;
     jitter := num 0.15 |}.

(** An oracle intent without categories but with a form, and a heuristic
    intent for a full outfit. *)
Definition oracleTopOnly : PromptIntent :=
  {| outfit_mode := Some single; requested_form := Some top_only;
     required_categories := []; optional_categories := [];
     target_gender := any; vibe_tags := []; colour_hints := [];
     brand_focus := []; team_focus := []; sport_context := none;
     fit_preference := None; specific_items := [] |}.
Definition heuristicFull : PromptIntent :=
  {| outfit_mode := Some outfit; requested_form := Some top_bottom_shoes;
     required_categories := [top; bottom; shoes]; optional_categories := [];
     target_gender := any; vibe_tags := []; colour_hints := [];
     brand_focus := []; team_focus := []; sport_context := none;
     fit_preference := Some mixed; specific_items := [] |}.

(** ** Definitions used to state further properties *)

(** Words of [a-z0-9] separated by single spaces, read from the left;
    [afterSpace] tells that the previous character was a space or that the
    string starts here, where neither a space nor the end may follow. *)
Fixpoint wordsFrom (afterSpace : bool) (s : string) : bool :=
  match s with
  | EmptyString => negb afterSpace
  | String c s' =>
      if isLowerAlnum c then wordsFrom false s'
      else Ascii.eqb c " " && negb afterSpace && wordsFrom true s'
  end.

(** The empty string, or words of [a-z0-9] separated by single spaces with
    no space at either end. *)
Definition isNormalized (s : string) : bool :=
  match s with
  | EmptyString => true
  | _ => wordsFrom true s
  end.

(** Every character is in [a-z0-9] or is white space. *)
Fixpoint alnumOrSpace (s : string) : bool :=
  match s with
  | EmptyString => true
  | String c s' => (isLowerAlnum c || isSpace c) && alnumOrSpace s'
  end.

(** Characters of [a-z0-9] and spaces, no two spaces in a row. *)
Fixpoint noRun (afterSpace : bool) (s : string) : bool :=
  match s with
  | EmptyString => true
  | String c s' =>
      if isLowerAlnum c then noRun false s'
      else Ascii.eqb c " " && negb afterSpace && noRun true s'
  end.

(** The colour weights of a request without colour hints. *)
Definition neutralBaseline (c : Colour) : Qc :=
  match c with
  | black | white | grey => num 0.3
  | beige => num 0.2
  | _ => 0
  end.

(** The body of the loop of [nearestCanon]. *)
Definition nearestStep (rgb : Qc * Qc * Qc) (acc : Colour * option Qc)
    (name : Colour) : Colour * option Qc :=
  let d := canonDistance name rgb in
  match snd acc with
  | None => (name, Some d)
  | Some bestD => if decide (d < bestD) then (name, Some d) else acc
  end.


(** * Properties *)

Section Properties.
Context `{JsText}.

(** ** Lists *)

Lemma nonEmpty_true {A} (l : list A) : nonEmpty l = true ↔ l ≠ [].
Proof. destruct l; simpl; split; congruence. Qed.

Lemma elem_of_List_filter {A} (f : A → bool) (l : list A) (x : A) :
  x ∈ List.filter f l ↔ x ∈ l ∧ f x = true.
Proof. rewrite !list_elem_of_In. apply filter_In. Qed.

Lemma List_filter_subseteq {A} (f : A → bool) (l : list A) :
  List.filter f l ⊆ l.
Proof. intros x Hx. by apply elem_of_List_filter in Hx as [? _]. Qed.

Lemma List_filter_mono {A} (f : A → bool) (l l' : list A) :
  l ⊆ l' → List.filter f l ⊆ List.filter f l'.
Proof.
  intros Hl x Hx. apply elem_of_List_filter in Hx as [Hx Hf].
  apply elem_of_List_filter. split; [by apply Hl | done].
Qed.

(** ** The sort is a stable descending sort *)

Lemma insertByScore_perm {A} (score : A → Qc) x l :
  insertByScore score x l ≡ₚ x :: l.
Proof.
  induction l as [|y l IH]; simpl; [done|].
  case_decide; [|done]. rewrite IH. apply Permutation_swap.
Qed.

Lemma sortByScore_perm {A} (score : A → Qc) l : sortByScore score l ≡ₚ l.
Proof.
  induction l as [|x l IH]; simpl; [done|].
  by rewrite insertByScore_perm, IH.
Qed.

Lemma insertByScore_descending {A} (score : A → Qc) x l :
  descending score l → descending score (insertByScore score x l).
Proof.
  unfold descending. induction 1 as [|y l Hl IH Hy]; simpl.
  - repeat constructor.
  - case_decide as Hlt.
    + constructor; [done|].
      apply Forall_forall. intros z Hz.
      apply list_elem_of_In, (Permutation_in _ (insertByScore_perm score x l)) in Hz.
      destruct Hz as [<- | Hz]; [by apply Qclt_le_weak|].
      by eapply Forall_forall in Hy; [|apply list_elem_of_In].
    + apply Qcnot_lt_le in Hlt.
      constructor; [by constructor|].
      constructor; [done|].
      eapply Forall_impl; [exact Hy|]. simpl. intros z Hz.
      by eapply Qcle_trans.
Qed.

Lemma sortByScore_descending {A} (score : A → Qc) l :
  descending score (sortByScore score l).
Proof.
  induction l as [|x l IH]; simpl; [constructor|].
  by apply insertByScore_descending.
Qed.

(** ** Candidate selection *)

Lemma firstNonEmptyStage_nonempty todo base intent weights :
  base ≠ [] → firstNonEmptyStage todo base intent weights ≠ [].
Proof.
  intros Hbase. induction todo as [|stage todo IH]; simpl; [done|].
  destruct (nonEmpty _) eqn:Hpool; [|done].
  by apply nonEmpty_true.
Qed.

Lemma roleBase_nonempty items cat intent weights :
  (∃ it, it ∈ items ∧ category it = cat) →
  roleBase items cat intent weights ≠ [].
Proof.
  intros (it & Hin & Hcat). unfold roleBase.
  assert (List.filter (λ it, bool_decide (category it = cat)) items ≠ [])
    as Hne.
  { intros Hnil.
    assert (it ∈ List.filter (λ it, bool_decide (category it = cat)) items)
      as Hit.
    { apply elem_of_List_filter. split; [done | by apply bool_decide_eq_true]. }
    rewrite Hnil in Hit. by apply elem_of_nil in Hit. }
  case_bool_decide; [|done].
  destruct (nonEmpty (List.filter _ _)) eqn:Hs; [|done].
  by apply nonEmpty_true.
Qed.

(** C1.  If the catalog has an item whose category is the role, the list
    [filterCandidatesForRole] returns for that role is not empty, whatever
    the intent and the weights. *)
Theorem filterCandidatesForRole_nonempty items cat intent weights :
  (∃ it, it ∈ items ∧ category it = cat) →
  filterCandidatesForRole items cat intent weights ≠ [].
Proof.
  intros Hex. unfold filterCandidatesForRole.
  by apply firstNonEmptyStage_nonempty, roleBase_nonempty.
Qed.

(** When every stage gives an empty pool the result is the base the stages
    started from, which is the role's items after the sport narrowing. *)
Lemma firstNonEmptyStage_fallback todo base intent weights :
  Forall (λ stage, stagePool base intent weights stage = []) todo →
  firstNonEmptyStage todo base intent weights = base.
Proof.
  induction 1 as [|stage todo Hnil _ IH]; simpl; [done|].
  by rewrite Hnil.
Qed.

Lemma keepBestSpecific_subseteq weights pool :
  keepBestSpecific weights pool ⊆ pool.
Proof.
  unfold keepBestSpecific.
  destruct (_ && _); [|done].
  case_bool_decide; [|done].
  intros x Hx. apply list_elem_of_fmap in Hx as ([y n] & -> & Hy).
  apply elem_of_List_filter in Hy as [Hy _].
  apply list_elem_of_fmap in Hy as (z & Heq & Hz). by inversion Heq; subst.
Qed.


Lemma stageFilters_widen base intent weights k st st' :
  stages !! k = Some st → stages !! S k = Some st' →
  stageFilters base intent weights st ⊆ stageFilters base intent weights st'.
Proof.
  intros Hk Hk'.
  destruct k as [|[|[|k]]]; simpl in Hk, Hk'; simplify_eq;
    unfold stageFilters; simpl.
  - destruct (nonEmpty (brandTokens weights)); [|done].
    destruct (nonEmpty (teamTokens weights)).
    + apply List_filter_mono, List_filter_subseteq.
    + apply List_filter_subseteq.
  - destruct (nonEmpty (teamTokens weights)); [|done].
    apply List_filter_subseteq.
  - case_bool_decide.
    + apply List_filter_subseteq.
    + destruct (nonEmpty _); [|done]. apply List_filter_subseteq.
Qed.


(** ** Pairwise compatibility *)

Lemma colourPairTerm_sym ca cb : colourPairTerm ca cb = colourPairTerm cb ca.
Proof. destruct ca, cb; reflexivity. Qed.

Lemma fold_left_Qcplus {A} (f : A → Qc) (ys : list A) (s : Qc) :
  fold_left (λ s y, s + f y) ys s = s + fold_left (λ s y, s + f y) ys 0.
Proof.
  revert s. induction ys as [|y ys IH]; intros s; simpl.
  - ring.
  - rewrite (IH (s + f y)), (IH (0 + f y)). ring.
Qed.

Lemma pairSum_shift f xs ys s : pairSum f xs ys s = s + pairSum f xs ys 0.
Proof.
  unfold pairSum. revert s. induction xs as [|x xs IH]; intros s; simpl.
  - ring.
  - rewrite (IH (fold_left _ ys s)), (IH (fold_left _ ys 0)).
    rewrite (fold_left_Qcplus (f x) ys s). ring.
Qed.

Lemma pairSum_cons_l f x xs ys :
  pairSum f (x :: xs) ys 0
  = fold_left (λ s y, s + f x y) ys 0 + pairSum f xs ys 0.
Proof.
  unfold pairSum at 1. simpl. fold (pairSum f xs ys). apply pairSum_shift.
Qed.

Lemma pairSum_cons_r f y xs ys :
  pairSum f xs (y :: ys) 0
  = fold_left (λ s x, s + f x y) xs 0 + pairSum f xs ys 0.
Proof.
  induction xs as [|x xs IH].
  - unfold pairSum. simpl. ring.
  - rewrite !pairSum_cons_l, IH. simpl.
    rewrite (fold_left_Qcplus (f x) ys (0 + f x y)).
    rewrite (fold_left_Qcplus (λ x, f x y) xs (0 + f x y)). ring.
Qed.

Lemma pairSum_swap f xs ys :
  pairSum f xs ys 0 = pairSum (λ y x, f x y) ys xs 0.
Proof.
  induction xs as [|x xs IH].
  - induction ys as [|y ys IHy]; [done|].
    rewrite pairSum_cons_l, <- IHy. unfold pairSum. simpl. ring.
  - by rewrite pairSum_cons_l, pairSum_cons_r, IH.
Qed.

Lemma pairSum_ext f g xs ys s :
  (∀ x y, f x y = g x y) → pairSum f xs ys s = pairSum g xs ys s.
Proof.
  intros Hfg. unfold pairSum. revert s.
  induction xs as [|x xs IH]; intros s; simpl; [done|].
  rewrite IH. f_equal. clear IH. revert s.
  induction ys as [|y ys IHy]; intros s; simpl; [done|].
  by rewrite IHy, Hfg.
Qed.

(** The double loop of [pairColorCompatibility] adds [colourPairTerm] for
    every pair. *)
Lemma pairColor_score a b :
  fold_left (λ score ca,
        fold_left (λ score cb,
          if bool_decide (ca = cb) then score + num 1.0
          else
            let isNeutralA := isNeutral ca in
            let isNeutralB := isNeutral cb in
            if isNeutralA && isNeutralB then score + num 0.6
            else if isNeutralA || isNeutralB then score + num 0.4
            else score) (colours b) score) (colours a) 0
  = pairSum colourPairTerm (colours a) (colours b) 0.
Proof.
  unfold pairSum. generalize (0 : Qc) as s.
  induction (colours a) as [|ca xs IH]; intros s; simpl; [done|].
  rewrite <- IH. f_equal. clear IH. revert s.
  induction (colours b) as [|cb ys IHb]; intros s; simpl; [done|].
  rewrite <- IHb. f_equal. unfold colourPairTerm.
  case_bool_decide; [done|].
  destruct (isNeutral ca), (isNeutral cb); simpl; try done. ring.
Qed.

(** In exact arithmetic the colour-pair term is symmetric: the sum of the
    addends does not depend on their order. *)
Lemma pairColorCompatibility_sym a b :
  pairColorCompatibility a b = pairColorCompatibility b a.
Proof.
  unfold pairColorCompatibility.
  rewrite (orb_comm (bool_decide (colours a = []))
                    (bool_decide (colours b = []))).
  destruct (_ || _); [done|].
  rewrite !pairColor_score, (Nat.mul_comm (length (colours a))).
  f_equal. rewrite pairSum_swap. apply pairSum_ext.
  intros x y. apply colourPairTerm_sym.
Qed.

Lemma num_13_neq_05 : num 1.3 ≠ num 0.5.
Proof. intros Heq. apply (f_equal this) in Heq. discriminate Heq. Qed.

(** C10.  The fit-pair term depends on which item is the top: with fits
    oversized and slim, an oversized top over a slim bottom scores 1.3 and a
    slim top over an oversized bottom scores 0.5, so exchanging the two fits
    changes the term. *)
Theorem pairFitCompatibility_directional :
  ∃ a b : Fit, a = oversized ∧ b = slim ∧
    ∀ t bt : IndexItem,
      pairFitCompatibility (withFit a t) (withFit b bt) = num 1.3
      ∧ pairFitCompatibility (withFit b t) (withFit a bt) = num 0.5
      ∧ pairFitCompatibility (withFit a t) (withFit b bt)
        ≠ pairFitCompatibility (withFit b t) (withFit a bt).
Proof.
  exists oversized, slim. repeat split. apply num_13_neq_05.
Qed.

(** ** The diversity factor *)

(** [clamp01] clamps to the interval from 0 to 1. *)
Lemma clamp01_range x : 0 ≤ clamp01 x ∧ clamp01 x ≤ 1.
Proof.
  unfold clamp01. repeat case_decide; split;
    try apply Qcle_refl; try done; by apply Qcnot_lt_le.
Qed.

Lemma clamp01_inside x : 0 ≤ x → x ≤ 1 → clamp01 x = x.
Proof.
  intros H0 H1. unfold clamp01.
  rewrite !decide_False; [done | by apply Qcle_not_lt..].
Qed.

(** ** Intent repair *)

(** C9, amended.  When the oracle's intent has no required categories, the
    merged intent has the required categories of the fallback intent; its
    requested form is the oracle's when the oracle gave one and the
    fallback's only when the oracle gave none. *)
Theorem mergeIntent_repairs_categories oracle heuristicIntent :
  required_categories oracle = [] →
  let merged := mergeIntent (Some oracle) heuristicIntent in
  required_categories merged = required_categories heuristicIntent
  ∧ requested_form merged
    = match requested_form oracle with
      | Some f => Some f
      | None => requested_form heuristicIntent
      end.
Proof.
  intros Hnil. unfold mergeIntent. simpl. rewrite Hnil. simpl.
  split; [done|]. by destruct (requested_form oracle).
Qed.

(** ** The sampling loop *)

Lemma choiceWeighted_scan_lookup {T} r i (items : list T) scores j it :
  choiceWeighted_scan r i items scores = Some (j, it) →
  ∃ k, j = (i + k)%nat ∧ items !! k = Some it.
Proof.
  revert r i scores.
  induction items as [|x items IH]; intros r i scores; simpl; [done|].
  destruct scores as [|s scores]; [done|].
  case_decide.
  - intros [= <- <-]. exists 0%nat. split; [lia | done].
  - intros (k & -> & Hk)%IH. exists (S k). split; [lia | done].
Qed.

Lemma lastWithIndex_lookup {T} (items : list T) j it :
  lastWithIndex items = Some (j, it) → items !! j = Some it.
Proof.
  unfold lastWithIndex. destruct (last items) as [x|] eqn:Hlast; [|done].
  intros [= <- <-]. by rewrite <- last_lookup.
Qed.

(** What [choiceWeighted] returns is an entry of [items], at the position
    returned with it. *)
Lemma choiceWeighted_lookup {T} (items : list T) scores g j it :
  (choiceWeighted items scores g).1 = Some (j, it) → items !! j = Some it.
Proof.
  unfold choiceWeighted. destruct (_ || _); [done|].
  unfold bind, Math_random, ret; simpl.
  destruct (choiceWeighted_scan _ _ _ _) as [[k x]|] eqn:Hscan; simpl.
  - intros [= <- <-].
    by apply choiceWeighted_scan_lookup in Hscan as (k' & -> & Hk').
  - apply lastWithIndex_lookup.
Qed.

(** A turn picks an entry of the band, for any draws and any epsilon. *)
Lemma sampleStep_picks epsilon st first g :
  head (topBand st) = Some first →
  ∃ idx pick, topBand st !! idx = Some pick
    ∧ (sampleStep epsilon st first g).1 = afterPick st idx pick.
Proof.
  intros Hhead. unfold sampleStep, bind, Math_random; simpl.
  assert (topBand st !! 0%nat = Some first) as H0 by (by destruct (topBand st)).
  case_decide.
  - destruct (choiceWeighted _ _ _) as [sel g'] eqn:Hsel. simpl.
    destruct sel as [[idx pick]|]; simpl.
    + exists idx, pick. split.
      * eapply choiceWeighted_lookup. by rewrite Hsel.
      * unfold afterPick, ret. by case_decide.
    + exists 0%nat, first. split; [done|].
      unfold afterPick, ret. by case_decide.
  - exists 0%nat, first. split; [done|].
    unfold afterPick, ret; simpl. by case_decide.
Qed.

Lemma afterPick_inv poolSize bandSize st idx pick :
  samplerInv poolSize bandSize st →
  (length (chosen st) < poolSize)%nat →
  topBand st !! idx = Some pick →
  samplerInv poolSize bandSize (afterPick st idx pick).
Proof.
  intros [Hd Hu Hc Hb] Hlt Hidx.
  assert (length (delete idx (topBand st)) = (length (topBand st) - 1)%nat)
    as Hdel by (by apply length_delete).
  assert (0 < length (topBand st))%nat as Hpos
    by (apply lookup_lt_Some in Hidx; lia).
  unfold afterPick. case_decide as Hin; constructor; simpl; try done; try lia.
  - rewrite fmap_app. apply NoDup_app. split; [done|]. split.
    + intros s Hs. rewrite <- Hu in Hs. simpl.
      by intros ->%list_elem_of_singleton.
    + apply NoDup_singleton.
  - intros s.
    rewrite fmap_app, elem_of_app, elem_of_union, elem_of_singleton, Hu.
    simpl. rewrite list_elem_of_singleton. tauto.
  - rewrite length_app. simpl. lia.
  - rewrite length_app. simpl. lia.
Qed.

Lemma afterPick_band st idx pick :
  topBand st !! idx = Some pick →
  length (topBand (afterPick st idx pick)) = (length (topBand st) - 1)%nat.
Proof.
  intros Hidx. unfold afterPick. case_decide; simpl; by apply length_delete.
Qed.

Lemma sampleLoop_inv fuel poolSize bandSize epsilon st g :
  samplerInv poolSize bandSize st →
  samplerInv poolSize bandSize (sampleLoop fuel poolSize epsilon st g).1.
Proof.
  revert st g. induction fuel as [|fuel IH]; intros st g Hinv; simpl; [done|].
  case_bool_decide as Hlt; [|done].
  destruct (topBand st) as [|first band] eqn:Hband; [done|].
  unfold bind. destruct (sampleStep epsilon st first g) as [st' g'] eqn:Hstep.
  apply IH.
  destruct (sampleStep_picks epsilon st first g) as (idx & pick & Hidx & Heq).
  { by rewrite Hband. }
  rewrite Hstep in Heq. simpl in Heq. subst st'.
  by apply afterPick_inv.
Qed.

(** With as many turns as the band has entries the loop has run to its
    end: its condition is false in the state returned. *)
Lemma sampleLoop_exits fuel poolSize epsilon st g :
  (length (topBand st) ≤ fuel)%nat →
  sampling poolSize (sampleLoop fuel poolSize epsilon st g).1 = false.
Proof.
  revert st g. induction fuel as [|fuel IH]; intros st g Hfuel; simpl.
  - unfold sampling. destruct (topBand st); [|simpl in Hfuel; lia].
    by rewrite andb_false_r.
  - destruct (bool_decide (length (chosen st) < poolSize)%nat) eqn:Hlt.
    + destruct (topBand st) as [|first band] eqn:Hband.
      { simpl. unfold sampling. by rewrite Hband, andb_false_r. }
      unfold bind.
      destruct (sampleStep epsilon st first g) as [st' g'] eqn:Hstep.
      apply IH.
      destruct (sampleStep_picks epsilon st first g)
        as (idx & pick & Hidx & Heq).
      { by rewrite Hband. }
      rewrite Hstep in Heq. simpl in Heq. subst st'.
      rewrite afterPick_band by done. rewrite Hband in *. simpl in *. lia.
    + simpl. unfold sampling. by rewrite Hlt.
Qed.

(** C2.  For every list of scored candidates, target count, diversity factor
    and stream of draws, the list the sampling loop ends with has no two
    entries of the same signature, is no longer than the target count and no
    longer than the band; and the loop has ended (its condition is false). *)
Theorem diversitySample_distinct_bounded outfits poolSize epsilon g :
  let final := (diversitySample outfits poolSize epsilon g).1 in
  NoDup (sigOf <$> chosen final)
  ∧ (length (chosen final) ≤ poolSize)%nat
  ∧ (length (chosen final)
     ≤ length (bandOf poolSize (sortByScore cand_score outfits)))%nat
  ∧ sampling poolSize final = false.
Proof.
  intros final. subst final. unfold diversitySample.
  set (band := bandOf poolSize (sortByScore cand_score outfits)).
  set (st0 := {| chosen := []; usedIds := ∅; topBand := band |}).
  assert (samplerInv poolSize (length band) st0) as Hinv0.
  { constructor; simpl; [apply NoDup_nil_2 | | lia | lia].
    intros s. rewrite elem_of_nil. set_solver. }
  pose proof (sampleLoop_inv (length band) poolSize (length band) epsilon
                st0 g Hinv0) as [Hd _ Hc Hb].
  repeat split; [done | done | lia |].
  by apply sampleLoop_exits.
Qed.

(** ** Sampling without diversity and without jitter *)

Lemma keepsDraws_ret {A} (a : A) : keepsDraws (ret a).
Proof. done. Qed.

Lemma keepsDraws_bind {A B} (m : Rand A) (k : A → Rand B) :
  keepsDraws m → (∀ a, keepsDraws (k a)) → keepsDraws (bind m k).
Proof.
  intros Hm Hk g. unfold bind. specialize (Hm g).
  destruct (m g) as [a g']. simpl in *. by rewrite Hk.
Qed.

Lemma keepsDraws_forEach {A B} (xs : list A) (body : A → Rand (list B)) :
  (∀ x, keepsDraws (body x)) → keepsDraws (forEach xs body).
Proof.
  intros Hbody. induction xs as [|x xs IH]; simpl.
  - apply keepsDraws_ret.
  - apply keepsDraws_bind; [done|]. intros ys.
    apply keepsDraws_bind; [done|]. intros zs. apply keepsDraws_ret.
Qed.

Lemma keepsDraws_pushJittered o s j : keepsDraws (pushJittered o s j).
Proof. done. Qed.

Create HintDb draws.
#[local] Hint Resolve keepsDraws_ret keepsDraws_forEach
  keepsDraws_pushJittered : draws.

Lemma unit_draws_keeps {A} (m : Rand A) g :
  keepsDraws m → unit_draws g → unit_draws (m g).2.
Proof. intros Hm Hg n. rewrite Hm. apply Hg. Qed.

Lemma assemble_keepsDraws requiredCats byCat isOutfit singleScores weights j :
  keepsDraws (assemble requiredCats byCat isOutfit singleScores weights j).
Proof.
  unfold assemble. destruct isOutfit.
  - case_bool_decide.
    + apply keepsDraws_forEach. intros m. destruct (_ && _); auto with draws.
    + apply keepsDraws_forEach. intros t. apply keepsDraws_forEach. intros b.
      destruct (_ && _); auto with draws.
  - auto with draws.
Qed.

(** A loop whose bodies push lists that do not depend on the draws pushes
    their concatenation. *)
Lemma forEach_pure {A B} (xs : list A) (body : A → Rand (list B))
    (pure : A → list B) g :
  (∀ x g, (body x g).1 = pure x) → (forEach xs body g).1 = flat_map pure xs.
Proof.
  intros Hbody. revert g. induction xs as [|x xs IH]; intros g; simpl; [done|].
  unfold bind. specialize (Hbody x g). destruct (body x g) as [ys g'].
  specialize (IH g'). destruct (forEach xs body g') as [zs g''].
  simpl in *. by subst.
Qed.

(** With a jitter of 0 the score pushed is the score computed. *)
Lemma pushJittered_zero o s g :
  (pushJittered o s 0 g).1 = [ {| cand_outfit := o; cand_score := s |} ].
Proof.
  unfold pushJittered, randUniform, bind, Math_random, ret; simpl.
  do 2 f_equal. ring.
Qed.

Lemma assemble_zero requiredCats byCat isOutfit singleScores weights g :
  (assemble requiredCats byCat isOutfit singleScores weights 0 g).1
  = rawCandidates requiredCats byCat isOutfit singleScores weights.
Proof.
  unfold assemble, rawCandidates. destruct isOutfit.
  - case_bool_decide.
    + apply forEach_pure. intros m g1. destruct (_ && _).
      * apply forEach_pure. intros sh g2. apply pushJittered_zero.
      * apply pushJittered_zero.
    + apply forEach_pure. intros t g1. apply forEach_pure. intros b g2.
      destruct (_ && _).
      * apply forEach_pure. intros sh g3. apply pushJittered_zero.
      * apply pushJittered_zero.
  - apply forEach_pure. intros cat g1. apply forEach_pure. intros it g2.
    apply pushJittered_zero.
Qed.

(** With epsilon 0 no draw is below epsilon: the turn takes the first entry
    of the band. *)
Lemma sampleStep_greedy st first g :
  unit_draws g → topBand st !! 0%nat = Some first →
  (sampleStep 0 st first g).1 = afterPick st 0 first
  ∧ unit_draws (sampleStep 0 st first g).2.
Proof.
  intros Hg H0. unfold sampleStep, bind, Math_random; simpl.
  destruct (Hg (cursor g)) as [Hge _].
  case_decide as Hlt.
  { exfalso. by apply Qcle_not_lt in Hge. }
  simpl. unfold afterPick, ret.
  case_decide; simpl; (split; [done|]); intros n; apply Hg.
Qed.

Lemma sampleLoop_greedy fuel poolSize st g :
  unit_draws g → (length (topBand st) ≤ fuel)%nat →
  chosen (sampleLoop fuel poolSize 0 st g).1
  = chosen st ++ take (poolSize - length (chosen st))
                      (distinctBySignature (usedIds st) (topBand st)).
Proof.
  revert st g. induction fuel as [|fuel IH]; intros st g Hg Hfuel; simpl.
  - destruct (topBand st); [|simpl in Hfuel; lia].
    simpl. by rewrite take_nil, app_nil_r.
  - case_bool_decide as Hlt.
    + destruct (topBand st) as [|first band] eqn:Hband.
      { simpl. by rewrite take_nil, app_nil_r. }
      unfold bind.
      destruct (sampleStep_greedy st first g Hg) as [Hst Hg'].
      { by rewrite Hband. }
      destruct (sampleStep 0 st first g) as [st' g'].
      simpl in Hst, Hg'. subst st'.
      rewrite IH; [|done|].
      * unfold afterPick. rewrite Hband. simpl.
        case_decide as Hin; simpl; [done|].
        rewrite length_app, <- app_assoc. simpl.
        replace (poolSize - length (chosen st))%nat
          with (S (poolSize - (length (chosen st) + 1)))%nat by lia.
        done.
      * unfold afterPick. rewrite Hband. simpl in *.
        case_decide; simpl; lia.
    + simpl. replace (poolSize - length (chosen st))%nat with 0%nat by lia.
      by rewrite take_0, app_nil_r.
Qed.

Lemma distinctBySignature_all used band :
  NoDup (sigOf <$> band) → (∀ c, c ∈ band → sigOf c ∉ used) →
  distinctBySignature used band = band.
Proof.
  revert used.
  induction band as [|c band IH]; intros used Hnd Hused; simpl; [done|].
  apply NoDup_cons in Hnd as [Hc Hnd].
  rewrite decide_False by (apply Hused; left).
  f_equal. apply IH; [done|]. intros c' Hc'.
  rewrite elem_of_union, elem_of_singleton. intros [Heq | Hin].
  - apply Hc. rewrite <- Heq. by apply list_elem_of_fmap_2.
  - revert Hin. apply Hused. by right.
Qed.

Lemma take_bandOf poolSize (sorted : list Candidate) :
  take poolSize (bandOf poolSize sorted) = take poolSize sorted.
Proof. unfold bandOf. rewrite take_take. f_equal. lia. Qed.

Lemma diversitySample_greedy outfits poolSize g :
  unit_draws g →
  chosen (diversitySample outfits poolSize 0 g).1
  = take poolSize (distinctBySignature ∅
      (bandOf poolSize (sortByScore cand_score outfits))).
Proof.
  intros Hg. unfold diversitySample.
  rewrite sampleLoop_greedy by done. simpl. f_equal. lia.
Qed.

Lemma recommend_greedy items intent opts g :
  unit_draws g → epsilon opts = 0 → jitter opts = 0 →
  (recommend items intent opts g).1
  = let raw := unperturbedCandidates items intent opts in
    if nonEmpty raw then
      Some (take (pool_size opts) (distinctBySignature ∅
              (bandOf (pool_size opts) (sortByScore cand_score raw))))
    else None.
Proof.
  intros Hg Heps Hjit.
  unfold recommend, unperturbedCandidates, effectiveEpsilon. simpl.
  rewrite Heps, Hjit. change (clamp01 0) with (0 : Qc). unfold bind.
  match goal with
  | |- context [assemble ?rc ?bc ?io ?ss ?w 0 g] =>
      pose proof (assemble_zero rc bc io ss w g) as Hraw;
      pose proof (unit_draws_keeps _ g
                    (assemble_keepsDraws rc bc io ss w 0) Hg) as Hg';
      destruct (assemble rc bc io ss w 0 g) as [outfits g']
  end.
  simpl in Hraw, Hg'. rewrite <- Hraw.
  destruct (nonEmpty outfits); [|done].
  pose proof (diversitySample_greedy outfits (pool_size opts) g' Hg') as Hch.
  destruct (diversitySample outfits (pool_size opts) 0 g') as [final g''].
  simpl in *. by rewrite Hch.
Qed.

(** With epsilon 0 and jitter 0 the output is, in descending order of
    unperturbed score (scores in exact arithmetic), the entries of the top
    band whose signature no better-ranked entry of the band has, cut at the
    target count (no output when there is no candidate); it is exactly the
    top-N candidates when the signatures of the band are pairwise distinct;
    and it is the same for every stream of draws. *)
Lemma greedy_output_is_distinct_top items intent opts g :
  unit_draws g → epsilon opts = 0 → jitter opts = 0 →
  let raw := unperturbedCandidates items intent opts in
  let ranked := sortByScore cand_score raw in
  let band := bandOf (pool_size opts) ranked in
  (recommend items intent opts g).1
  = (if nonEmpty raw
     then Some (take (pool_size opts) (distinctBySignature ∅ band))
     else None)
  ∧ (NoDup (sigOf <$> band) → raw ≠ [] →
     (recommend items intent opts g).1 = Some (take (pool_size opts) ranked))
  ∧ (∀ g', unit_draws g' →
     (recommend items intent opts g').1 = (recommend items intent opts g).1).
Proof.
  intros Hg Heps Hjit raw ranked band.
  pose proof (recommend_greedy items intent opts g Hg Heps Hjit) as Hrec.
  simpl in Hrec. fold raw in Hrec. fold ranked in Hrec. fold band in Hrec.
  split; [done|]. split.
  - intros Hnd Hraw. rewrite Hrec.
    destruct raw as [|c raw'] eqn:Eraw; [done|]. simpl.
    rewrite distinctBySignature_all; [| done | set_solver].
    subst band. by rewrite take_bandOf.
  - intros g' Hg'.
    by rewrite Hrec, (recommend_greedy items intent opts g' Hg' Heps Hjit).
Qed.

End Properties.

(** * The properties on the example data *)

Section Examples.
#[local] Existing Instance asciiText.

Lemma zeroDraws_unit : unit_draws zeroDraws.
Proof. intros n. simpl. split; [apply Qcle_refl | reflexivity]. Defined.

(** ** Candidate selection *)

Lemma filterCandidatesForRole_nonempty_witness :
  (∃ it, it ∈ womenTops ∧ category it = top)
  ∧ filterCandidatesForRole womenTops top menFootball
      (buildWeights menFootball) ≠ [].
Proof.
  assert (∃ it, it ∈ womenTops ∧ category it = top) as Hex.
  { exists footballShirt. split; [left | reflexivity]. }
  split; [exact Hex|].
  exact (filterCandidatesForRole_nonempty womenTops top menFootball
           (buildWeights menFootball) Hex).
Defined.

(** C7.  For a men's football request over two women's tops, one a football
    shirt and one plain, every stage gives an empty pool and the fallback
    returns the football shirt alone, although the catalog has two tops: the
    fallback returns the base left by the sport narrowing, not all items of
    the role. *)
Theorem fallback_keeps_sport_narrowing :
  let w := buildWeights menFootball in
  Forall (λ stage,
    stagePool (roleBase womenTops top menFootball w) menFootball w stage = [])
    stages
  ∧ filterCandidatesForRole womenTops top menFootball w = [footballShirt]
  ∧ List.filter (λ it, bool_decide (category it = top)) womenTops
    = [footballShirt; plainTee].
Proof. vm_compute. repeat constructor. Qed.




(** ** Scoring *)

(** C4.  Without colour hints the neutral baseline makes the total colour
    weight positive, so an item none of whose colours has a weight is given
    the no-match penalty: a red top scores -0.5 on colour for a request that
    names no colour. *)
Theorem colour_penalty_without_hints :
  colour_hints noColourHints = []
  ∧ colourAlignment redTop (wColour (buildWeights noColourHints)) = - num 0.5.
Proof. split; [reflexivity|]. apply Qc_is_canon. vm_compute. reflexivity. Qed.

(** C5.  A diversity factor of 0.8 is used as it is: [clamp01] clamps to the
    interval from 0 to 1, while a clamp to the interval from 0 to 0.5 gives
    0.5. *)
Theorem effective_epsilon_above_half :
  effectiveEpsilon wideOptions = num 0.8
  ∧ clampTo 0 (num 0.5) (epsilon wideOptions) = num 0.5.
Proof. split; reflexivity. Qed.

(** ** Intent repair *)

(** The claim of C9 fails as stated: an oracle intent without categories
    that names the form [top_only] keeps that form, while the fallback's form
    is [top_bottom_shoes]. *)
Lemma mergeIntent_keeps_oracle_form :
  required_categories oracleTopOnly = []
  ∧ requested_form (mergeIntent (Some oracleTopOnly) heuristicFull)
    = Some top_only
  ∧ requested_form (mergeIntent (Some oracleTopOnly) heuristicFull)
    ≠ requested_form heuristicFull.
Proof. repeat split. discriminate. Qed.

Lemma mergeIntent_repairs_categories_witness :
  required_categories oracleTopOnly = []
  ∧ required_categories (mergeIntent (Some oracleTopOnly) heuristicFull)
    = [top; bottom; shoes].
Proof.
  split; [reflexivity|].
  exact (proj1 (mergeIntent_repairs_categories oracleTopOnly heuristicFull
                  eq_refl)).
Defined.

(** ** Sampling without diversity and without jitter *)

Lemma barCatalog_ids_distinct : NoDup (id <$> barCatalog).
Proof. apply (bool_decide_unpack _). vm_compute. exact I. Qed.

(** C3.  With epsilon 0, jitter 0 and a target count of 4, the four
    candidates of [barCatalog] have pairwise different items, and three are
    output: the signature joins the sorted ids with a bar, so the outfit of
    "a|b" and "c" has the signature of the outfit of "a" and "b|c" and is
    dropped as a duplicate, although the check is meant to avoid outfits
    with the same items.  With ids that hold no bar all four are output. *)
Theorem signature_collision_drops_outfit :
  let opts := greedyOptions 4 in
  let candidates := unperturbedCandidates barCatalog topAndBottom opts in
  epsilon opts = 0 ∧ jitter opts = 0
  ∧ NoDup (id <$> barCatalog)
  ∧ (outfitIds ∘ cand_outfit <$> candidates)
    = [["a"; "b|c"]; ["a"; "c"]; ["a|b"; "b|c"]; ["a|b"; "c"]]%string
  ∧ (sigOf <$> candidates) = ["a|b|c"; "a|c"; "a|b|b|c"; "a|b|c"]%string
  ∧ (fmap (M := list) (outfitIds ∘ cand_outfit)
       <$> (recommend barCatalog topAndBottom opts zeroDraws).1)
    = Some [["a"; "b|c"]; ["a"; "c"]; ["a|b"; "b|c"]]%string
  ∧ (length <$> (recommend plainCatalog topAndBottom opts zeroDraws).1)
    = Some 4%nat.
Proof.
  split; [reflexivity|]. split; [reflexivity|].
  split; [exact barCatalog_ids_distinct|].
  vm_compute. repeat split.
Qed.

End Examples.

(** * Further properties *)

Section Coverage.
Context `{JsText}.

Ltac destruct_ifs :=
  repeat match goal with
  | |- context [if ?b then _ else _] => destruct b
  end.

(** ** Text normalisation *)

Lemma isLowerAlnum_not_space c : isLowerAlnum c = true → isSpace c = false.
Proof.
  unfold isLowerAlnum, isSpace. generalize (byte c). intros n Hn.
  apply orb_true_iff in Hn.
  apply orb_false_iff. rewrite andb_false_iff, !N.leb_gt, N.eqb_neq.
  rewrite !andb_true_iff, !N.leb_le in Hn. lia.
Qed.

Lemma replaceNonAlnum_alnumOrSpace s : alnumOrSpace (replaceNonAlnum s) = true.
Proof.
  induction s as [|c s IH]; simpl; [done|].
  rewrite IH, andb_true_r.
  destruct (isLowerAlnum c || isSpace c) eqn:Hc; [done|]. reflexivity.
Qed.

Lemma collapseSpaces_noRun p s :
  alnumOrSpace s = true → noRun p (collapseSpaces p s) = true.
Proof.
  revert p. induction s as [|c s IH]; intros p; simpl; [done|].
  intros [Hc Hs]%andb_true_iff.
  destruct (isSpace c) eqn:Hsp.
  - destruct p; [by apply IH|]. simpl. by apply IH.
  - rewrite orb_false_r in Hc. simpl. rewrite Hc. by apply IH.
Qed.

Lemma trimStart_noRun p s :
  noRun p s = true → noRun true (trimStart s) = true.
Proof.
  revert p. induction s as [|c s IH]; intros p; simpl; [done|].
  destruct (isLowerAlnum c) eqn:Hc.
  - rewrite (isLowerAlnum_not_space c Hc). simpl. by rewrite Hc.
  - intros [[Heq _]%andb_true_iff Hs]%andb_true_iff.
    apply Ascii.eqb_eq in Heq. subst c. simpl. by eapply IH.
Qed.

Lemma trimEnd_wordsFrom p s :
  noRun p s = true →
  match trimEnd s with
  | EmptyString => True
  | t => wordsFrom p t = true
  end.
Proof.
  revert p. induction s as [|c s IH]; intros p; simpl; [done|].
  destruct (isLowerAlnum c) eqn:Hc.
  - intros Hs. specialize (IH false Hs).
    destruct (trimEnd s) as [|d t] eqn:Ht.
    + rewrite (isLowerAlnum_not_space c Hc). simpl. by rewrite Hc.
    + simpl. rewrite Hc. exact IH.
  - intros [[Heq Hp]%andb_true_iff Hs]%andb_true_iff.
    apply Ascii.eqb_eq in Heq. subst c. specialize (IH true Hs).
    destruct (trimEnd s) as [|d t] eqn:Ht; [done|].
    cbn [wordsFrom]. change (isLowerAlnum " ") with false. rewrite Hp.
    simpl. exact IH.
Qed.

Lemma trim_isNormalized p s : noRun p s = true → isNormalized (trim s) = true.
Proof.
  intros Hs. unfold trim, isNormalized.
  pose proof (trimEnd_wordsFrom true (trimStart s) (trimStart_noRun p s Hs))
    as Ht.
  by destruct (trimEnd (trimStart s)).
Qed.

(** X1.  Whatever the runtime's lower-casing and NFD decomposition do, the
    result of [normalizeText] is empty or consists of words of [a-z0-9]
    separated by single spaces, with no space at either end. *)
Theorem normalizeText_isNormalized s : isNormalized (normalizeText s) = true.
Proof.
  unfold normalizeText. apply (trim_isNormalized false).
  apply collapseSpaces_noRun, replaceNonAlnum_alnumOrSpace.
Qed.

Lemma isLowerAlnum_asciiLower c : isLowerAlnum c = true → asciiLower c = c.
Proof.
  unfold isLowerAlnum, asciiLower. intros Hc.
  destruct ((65 <=? byte c)%N && (byte c <=? 90)%N) eqn:Hu; [|done].
  exfalso. revert Hc Hu. generalize (byte c). intros n.
  rewrite orb_true_iff, !andb_true_iff, !N.leb_le. lia.
Qed.

Lemma isLowerAlnum_low c : isLowerAlnum c = true → (byte c < 128)%N.
Proof.
  unfold isLowerAlnum. generalize (byte c). intros n.
  rewrite orb_true_iff, !andb_true_iff, !N.leb_le. lia.
Qed.

Lemma low_not_mark b1 b2 : (byte b1 < 128)%N → isCombiningMark b1 b2 = false.
Proof.
  unfold isCombiningMark. generalize (byte b1), (byte b2). intros n m Hn.
  rewrite orb_false_iff, !andb_false_iff, !N.eqb_neq. lia.
Qed.

Lemma wordsFrom_head p c s :
  wordsFrom p (String c s) = true →
  (byte c < 128)%N ∧ (isLowerAlnum c || isSpace c) = true.
Proof.
  simpl. destruct (isLowerAlnum c) eqn:Hc.
  - intros _. split; [by apply isLowerAlnum_low | done].
  - intros [[->%Ascii.eqb_eq _]%andb_true_iff _]%andb_true_iff. by split.
Qed.

Lemma wordsFrom_tail p c s :
  wordsFrom p (String c s) = true → ∃ q, wordsFrom q s = true.
Proof.
  simpl. destruct (isLowerAlnum c); [by exists false|].
  intros [_ ?]%andb_true_iff. by exists true.
Qed.

Lemma wordsFrom_lower p s : wordsFrom p s = true → mapString asciiLower s = s.
Proof.
  revert p. induction s as [|c s IH]; intros p Hs; [done|].
  destruct (wordsFrom_tail p c s Hs) as [q Hq].
  simpl. rewrite (IH q Hq). f_equal.
  simpl in Hs.
  destruct (isLowerAlnum c) eqn:Hc; [by apply isLowerAlnum_asciiLower|].
  apply andb_true_iff in Hs as [[->%Ascii.eqb_eq _]%andb_true_iff _]. done.
Qed.

Lemma wordsFrom_strip p s : wordsFrom p s = true → stripCombiningMarks s = s.
Proof.
  revert p. induction s as [|c s IH]; intros p Hs; [done|].
  destruct (wordsFrom_tail p c s Hs) as [q Hq].
  destruct (wordsFrom_head p c s Hs) as [Hlow _].
  cbn [stripCombiningMarks]. destruct s as [|d s']; [done|].
  rewrite (low_not_mark c d Hlow). by rewrite (IH q Hq).
Qed.

Lemma wordsFrom_replace p s : wordsFrom p s = true → replaceNonAlnum s = s.
Proof.
  revert p. induction s as [|c s IH]; intros p Hs; [done|].
  destruct (wordsFrom_tail p c s Hs) as [q Hq].
  destruct (wordsFrom_head p c s Hs) as [_ Hc].
  simpl. by rewrite Hc, (IH q Hq).
Qed.

Lemma wordsFrom_collapse p s : wordsFrom p s = true → collapseSpaces p s = s.
Proof.
  revert p. induction s as [|c s IH]; intros p; simpl; [done|].
  destruct (isLowerAlnum c) eqn:Hc.
  - rewrite (isLowerAlnum_not_space c Hc). intros Hs. by rewrite IH.
  - intros [[->%Ascii.eqb_eq Hp]%andb_true_iff Hs]%andb_true_iff.
    simpl. destruct p; [done|]. by rewrite IH.
Qed.

Lemma wordsFrom_trimEnd p s : wordsFrom p s = true → trimEnd s = s.
Proof.
  revert p. induction s as [|c s IH]; intros p; simpl; [done|].
  destruct (isLowerAlnum c) eqn:Hc.
  - intros Hs. rewrite (IH _ Hs). destruct s; [|done].
    by rewrite (isLowerAlnum_not_space c Hc).
  - intros [[->%Ascii.eqb_eq Hp]%andb_true_iff Hs]%andb_true_iff.
    rewrite (IH _ Hs). by destruct s.
Qed.

(** On ASCII text a normalised string is left as it is. *)
Lemma normalizeText_fixes s :
  isNormalized s = true → normalizeText (H := asciiText) s = s.
Proof.
  destruct s as [|c s]; [done|]. unfold isNormalized. intros Hs.
  assert (wordsFrom false (String c s) = true) as Hf.
  { simpl in *. destruct (isLowerAlnum c); [done|].
    by rewrite andb_false_r in Hs. }
  unfold normalizeText. cbn [toLowerCase normalizeNFD asciiText].
  rewrite (wordsFrom_lower _ _ Hs), (wordsFrom_strip _ _ Hs),
    (wordsFrom_replace _ _ Hs), (wordsFrom_collapse _ _ Hf).
  unfold trim.
  assert (trimStart (String c s) = String c s) as ->.
  { simpl in *.
    destruct (isLowerAlnum c) eqn:Hc; [|by rewrite andb_false_r in Hs].
    by rewrite (isLowerAlnum_not_space c Hc). }
  by apply (wordsFrom_trimEnd true).
Qed.

(** X2.  On ASCII text (lower-casing of A-Z, NFD the identity)
    [normalizeText] is idempotent. *)
Theorem normalizeText_idempotent s :
  normalizeText (H := asciiText) (normalizeText (H := asciiText) s)
  = normalizeText (H := asciiText) s.
Proof.
  apply normalizeText_fixes. unfold normalizeText.
  apply (trim_isNormalized false), collapseSpaces_noRun,
    replaceNonAlnum_alnumOrSpace.
Qed.

(** ** Sets kept as arrays *)

Lemma uniq_from_elem {A} `{EqDecision A} (acc xs : list A) x :
  x ∈ fold_left (λ acc x, if decide (x ∈ acc) then acc else acc ++ [x]) xs acc
  ↔ x ∈ acc ∨ x ∈ xs.
Proof.
  revert acc. induction xs as [|y xs IH]; intros acc; simpl.
  - rewrite elem_of_nil. tauto.
  - rewrite IH, elem_of_cons. case_decide as Hy.
    + split; [tauto|]. intros [?|[->|?]]; tauto.
    + rewrite elem_of_app, list_elem_of_singleton. tauto.
Qed.

Lemma uniq_from_NoDup {A} `{EqDecision A} (acc xs : list A) :
  NoDup acc →
  NoDup (fold_left (λ acc x, if decide (x ∈ acc) then acc else acc ++ [x])
           xs acc).
Proof.
  revert acc. induction xs as [|y xs IH]; intros acc Hacc; simpl; [done|].
  apply IH. case_decide as Hy; [done|].
  apply NoDup_app. split; [done|]. split; [|apply NoDup_singleton].
  intros z Hz ->%list_elem_of_singleton. done.
Qed.

Lemma uniq_from_id {A} `{EqDecision A} (acc xs : list A) :
  NoDup (acc ++ xs) →
  fold_left (λ acc x, if decide (x ∈ acc) then acc else acc ++ [x]) xs acc
  = acc ++ xs.
Proof.
  revert acc. induction xs as [|y xs IH]; intros acc Hnd; simpl.
  - by rewrite app_nil_r.
  - pose proof Hnd as Hnd'. apply NoDup_app in Hnd' as (_ & Hdisj & _).
    rewrite decide_False.
    + rewrite IH; [by rewrite <- app_assoc|]. by rewrite <- app_assoc.
    + intros Hy. apply (Hdisj y Hy). left.
Qed.

Lemma uniq_from_length {A} `{EqDecision A} (acc xs : list A) :
  (length (fold_left (λ acc x, if decide (x ∈ acc) then acc else acc ++ [x])
             xs acc)
   ≤ length acc + length xs)%nat.
Proof.
  revert acc. induction xs as [|y xs IH]; intros acc; simpl; [lia|].
  etrans; [apply IH|]. case_decide; [lia|]. rewrite length_app. simpl. lia.
Qed.

Lemma uniq_from_head {A} `{EqDecision A} (acc xs : list A) :
  acc ≠ [] →
  head (fold_left (λ acc x, if decide (x ∈ acc) then acc else acc ++ [x])
          xs acc)
  = head acc.
Proof.
  revert acc. induction xs as [|y xs IH]; intros acc Hne; simpl; [done|].
  rewrite IH.
  - case_decide; [done|]. destruct acc; [by destruct Hne | done].
  - case_decide; [done|]. destruct acc; [by destruct Hne | done].
Qed.

Lemma uniq_NoDup {A} `{EqDecision A} (xs : list A) : NoDup (uniq xs).
Proof. apply uniq_from_NoDup, NoDup_nil_2. Qed.

(** X3.  [Array.from(new Set(xs))] has no duplicates and the members of
    [xs], is no longer than [xs], and is [xs] itself when [xs] has no
    duplicates. *)
Theorem uniq_set {A} `{EqDecision A} (xs : list A) :
  NoDup (uniq xs)
  ∧ (∀ x, x ∈ uniq xs ↔ x ∈ xs)
  ∧ (length (uniq xs) ≤ length xs)%nat
  ∧ (NoDup xs → uniq xs = xs).
Proof.
  unfold uniq. repeat split.
  - apply uniq_from_NoDup, NoDup_nil_2.
  - intros Hx. apply uniq_from_elem in Hx as [Hx|Hx]; [|done].
    by apply elem_of_nil in Hx.
  - intros Hx. apply uniq_from_elem. by right.
  - apply (uniq_from_length []).
  - intros Hnd. by rewrite uniq_from_id.
Qed.

(** ** The heuristic intent and the repair *)

Lemma NoDup_take {B} (l : list B) n : NoDup l → NoDup (take n l).
Proof.
  intros Hl. rewrite <- (take_drop n l) in Hl.
  by apply NoDup_app in Hl as [? _].
Qed.

(** X4.  The heuristic intent of any prompt has a requested form with its
    required categories: never [top_bottom] nor [mono_and_shoes], at least
    one category, no category twice, and exactly one category in single
    mode. *)
Theorem guessIntentHeuristic_categories prompt genderPref :
  let intent := guessIntentHeuristic prompt genderPref in
  required_categories intent ≠ []
  ∧ NoDup (required_categories intent)
  ∧ (outfit_mode intent = Some single →
     length (required_categories intent) = 1%nat)
  ∧ requested_form intent ≠ Some top_bottom
  ∧ requested_form intent ≠ Some mono_and_shoes.
Proof.
  intros intent. subst intent. unfold guessIntentHeuristic.
  cbn [required_categories outfit_mode requested_form].
  repeat split.
  - destruct_ifs; done.
  - destruct_ifs; apply (bool_decide_unpack _); reflexivity.
  - destruct_ifs; done.
  - destruct_ifs; done.
  - destruct_ifs; done.
Qed.

(** X5.  The heuristic intent has at most three vibe tags, none twice; its
    fit preference is never null and its target gender never unisex; and a
    sport context gives the tag [sporty] unless three other tags come
    before it. *)
Theorem guessIntentHeuristic_tags prompt genderPref :
  let intent := guessIntentHeuristic prompt genderPref in
  NoDup (vibe_tags intent)
  ∧ (length (vibe_tags intent) ≤ 3)%nat
  ∧ fit_preference intent ≠ None
  ∧ target_gender intent ≠ target unisex
  ∧ (sport_context intent ≠ none →
     sporty ∈ vibe_tags intent ∨ length (vibe_tags intent) = 3%nat).
Proof.
  intros intent. subst intent. unfold guessIntentHeuristic.
  cbn [vibe_tags fit_preference target_gender sport_context].
  repeat split.
  - apply NoDup_take, uniq_NoDup.
  - rewrite length_take. lia.
  - destruct_ifs; done.
  - by destruct genderPref.
  - set (ctx := if has _ ["football"; _; _; _]%string then _ else _).
    intros Hctx. rewrite (bool_decide_eq_true_2 _ Hctx). clearbody ctx.
    destruct_ifs;
      first [ right; reflexivity
            | left; apply (bool_decide_unpack _); vm_compute; exact I ].
Qed.

Lemma mergeIntent_categories oracle h :
  required_categories (mergeIntent oracle h) = required_categories h
  ∨ required_categories (mergeIntent oracle h) ≠ [].
Proof.
  unfold mergeIntent. destruct oracle as [o|]; simpl.
  - case_bool_decide as Hlen; [by left|].
    destruct (_ && _); [by left|]. right.
    by destruct (required_categories o).
  - case_bool_decide; [by left|]. destruct (_ && _); by left.
Qed.

(** X6.  Without an oracle intent the repair returns the heuristic intent
    unchanged. *)
Theorem mergeIntent_without_oracle h : mergeIntent None h = h.
Proof.
  unfold mergeIntent. simpl. case_bool_decide as Hlen.
  - destruct h as [om rf rc oc tg vt ch bf tf sc fp si]. simpl in *.
    by destruct om, rf.
  - rewrite (bool_decide_eq_false_2 (_ < _)%nat) by lia.
    by rewrite andb_false_r.
Qed.

(** X7.  Whatever the oracle returned, the intent [main] works with has at
    least one required category. *)
Theorem resolveIntent_has_categories prompt genderPref oracle :
  required_categories (resolveIntent prompt genderPref oracle) ≠ [].
Proof.
  unfold resolveIntent.
  destruct (mergeIntent_categories oracle
              (guessIntentHeuristic prompt genderPref)) as [-> | Hne]; [|done].
  unfold guessIntentHeuristic. cbn [required_categories].
  destruct_ifs; done.
Qed.

(** ** Weights *)

Lemma ofNat_S n : ofNat (S n) = ofNat n + num 1.0.
Proof.
  unfold ofNat, num. apply Qc_is_canon. simpl.
  rewrite !Qred_correct. rewrite Nat2Z.inj_succ.
  unfold Z.succ. rewrite inject_Z_plus. unfold Qeq; simpl. lia.
Qed.

Lemma ofNat_0 : ofNat 0 = 0.
Proof. by apply Qc_is_canon. Qed.

Lemma ofNat_nonneg n : 0 ≤ ofNat n.
Proof.
  induction n as [|n IH]; [by rewrite ofNat_0|].
  rewrite ofNat_S. by apply Qcplus_nonneg_nonneg.
Qed.

Lemma ofNat_pos n : (0 < n)%nat → num 1.0 ≤ ofNat n.
Proof.
  destruct n as [|n]; [lia|]. intros _. rewrite ofNat_S.
  replace (num 1.0) with (0 + num 1.0) at 1 by ring.
  apply Qcplus_le_mono_r, ofNat_nonneg.
Qed.

(** A loop of [w[k] += 1.0] adds to each weight the number of times its key
    occurs. *)
Lemma count_weights {K} `{EqDecision K} (ks : list K) (w0 : K → Qc) k :
  fold_left (λ w c, <[c := w c + num 1.0]> w) ks w0 k
  = w0 k + ofNat (count_occ EqDecision0 ks k).
Proof.
  revert w0. induction ks as [|c ks IH]; intros w0; simpl.
  - rewrite ofNat_0. ring.
  - rewrite IH. destruct (EqDecision0 c k) as [->|Hne].
    + rewrite fn_lookup_insert, ofNat_S. ring.
    + by rewrite fn_lookup_insert_ne.
Qed.

Lemma buildWeights_wColour_value intent c :
  wColour (buildWeights intent) c
  = if bool_decide (colour_hints intent = []) then neutralBaseline c
    else ofNat (count_occ Colour_eq_dec (colour_hints intent) c).
Proof.
  unfold buildWeights. cbn [wColour].
  destruct (colour_hints intent) as [|h hs] eqn:Hh.
  - simpl. apply Qc_is_canon. by destruct c.
  - rewrite bool_decide_eq_false_2 by done.
    rewrite bool_decide_eq_false_2 by done.
    rewrite count_weights. ring.
Qed.

Lemma buildWeights_wVibe_value intent v :
  wVibe (buildWeights intent) v
  = ofNat (count_occ Vibe_eq_dec (vibe_tags intent) v).
Proof. unfold buildWeights. cbn [wVibe]. rewrite count_weights. ring. Qed.

Lemma buildWeights_wColour_nonneg intent c :
  0 ≤ wColour (buildWeights intent) c.
Proof.
  rewrite buildWeights_wColour_value.
  case_bool_decide; [by destruct c | apply ofNat_nonneg].
Qed.

(** X8.  The colour weight of a request is the number of times the colour
    occurs among its hints (a colour hinted twice weighs 2), or, without any
    hint, the neutral baseline; the vibe weight is the number of times the
    vibe occurs among the tags. *)
Theorem buildWeights_counts intent :
  (∀ c, wColour (buildWeights intent) c
        = if bool_decide (colour_hints intent = []) then neutralBaseline c
          else ofNat (count_occ Colour_eq_dec (colour_hints intent) c))
  ∧ (∀ v, wVibe (buildWeights intent) v
          = ofNat (count_occ Vibe_eq_dec (vibe_tags intent) v)).
Proof.
  split; [apply buildWeights_wColour_value | apply buildWeights_wVibe_value].
Qed.

Lemma token_fold_inv (ws : list string) (set : list string) :
  NoDup set → Forall (λ w, truthy w = true) set →
  let set' := fold_left (λ set w,
          if truthy w then (if decide (w ∈ set) then set else set ++ [w])
          else set) ws set in
  NoDup set' ∧ Forall (λ w, truthy w = true) set'.
Proof.
  revert set. induction ws as [|w ws IH]; intros set Hnd Hall; simpl; [done|].
  apply IH.
  - destruct (truthy w); [|done]. case_decide as Hin; [done|].
    apply NoDup_app. split; [done|]. split; [|apply NoDup_singleton].
    by intros z Hz ->%list_elem_of_singleton.
  - destruct (truthy w) eqn:Hw; [|done]. case_decide; [done|].
    apply Forall_app. split; [done|]. by constructor.
Qed.

Lemma specific_fold_inv (raws : list string) (set : list string) :
  NoDup set → Forall (λ w, truthy w = true) set →
  let set' := fold_left (λ set raw,
      let norm := normalizeText raw in
      if truthy norm then
        fold_left (λ set w,
          if truthy w then (if decide (w ∈ set) then set else set ++ [w])
          else set) (split " " norm) set
      else set) raws set in
  NoDup set' ∧ Forall (λ w, truthy w = true) set'.
Proof.
  revert set. induction raws as [|raw raws IH]; intros set Hnd Hall; [done|].
  cbn [fold_left]. cbv zeta.
  destruct (truthy (normalizeText raw)); [|by apply IH].
  destruct (token_fold_inv (split " " (normalizeText raw)) set Hnd Hall).
  by apply IH.
Qed.

(** X9.  The specific-item tokens of a request are pairwise distinct and
    none is empty. *)
Theorem buildWeights_specificTokens intent :
  NoDup (specificTokens (buildWeights intent))
  ∧ Forall (λ w, truthy w = true) (specificTokens (buildWeights intent)).
Proof.
  unfold buildWeights. cbn [specificTokens].
  apply (specific_fold_inv (specific_items intent) []);
    [apply NoDup_nil_2 | done].
Qed.

(** ** Item scores *)

(** X10.  Whatever the fit preference of the request and the fit of the
    item, the fit factor lies between 0.1 and 1: no fit is zeroed. *)
Theorem fitAlignment_bounds intent item :
  num 0.1 ≤ fitAlignment item (wFit (buildWeights intent))
  ∧ fitAlignment item (wFit (buildWeights intent)) ≤ num 1.0.
Proof.
  unfold fitAlignment, buildWeights. cbn [wFit].
  destruct (fit_preference intent) as [[|f]|]; destruct (fit item) as [x|];
    try destruct f; try destruct x; by vm_compute.
Qed.

Lemma buildWeights_wSport intent s :
  wSport (buildWeights intent) s
  = if bool_decide (sport_context intent ≠ none ∧ s = sport_context intent)
    then num 1.0 else 0.
Proof.
  unfold buildWeights. cbn [wSport].
  destruct (sport_context intent), s; reflexivity.
Qed.

(** X11.  The sport factor of an item for a request: without sport context
    it is 0 for an item without sport and a penalty of 0.4 (0.7 for a kit)
    for a sport item; with a sport context it is 1 (1.5 for a kit) for an
    item of that sport and 0 for any other item. *)
Theorem sportAlignment_of_request intent item :
  sportAlignment item (wSport (buildWeights intent)) (sport_context intent)
  = if bool_decide (sport_context intent = none) then
      if bool_decide (sportOf item = none) then 0
      else if isKitOf item then - num 0.7 else - num 0.4
    else if bool_decide (sportOf item = sport_context intent) then
      if isKitOf item then num 1.5 else num 1.0
    else 0.
Proof.
  unfold sportAlignment. rewrite buildWeights_wSport.
  destruct (sport_context intent), (sportOf item), (isKitOf item);
    apply Qc_is_canon; reflexivity.
Qed.

Lemma specific_fold txt toks (s : Qc) (n : nat) :
  s = ofNat n →
  fold_left (λ score t,
      if truthy t then (if includes txt t then score + num 1.0 else score)
      else score) toks s
  = ofNat (fold_left (λ count t,
      if truthy t then (if includes txt t then S count else count)
      else count) toks n).
Proof.
  revert s n. induction toks as [|t toks IH]; intros s n Hs; simpl; [done|].
  apply IH. destruct_ifs; try done. by rewrite ofNat_S, Hs.
Qed.

Lemma count_fold_bound txt toks n :
  (fold_left (λ count t,
      if truthy t then (if includes txt t then S count else count)
      else count) toks n ≤ n + length toks)%nat.
Proof.
  revert n. induction toks as [|t toks IH]; intros n; simpl; [lia|].
  etrans; [apply IH|]. destruct_ifs; lia.
Qed.

(** X12.  The specific-item factor of the score is the count the candidate
    filter uses, [countSpecificMatches], and is at most the number of
    tokens. *)
Theorem specificItemAlignment_counts item toks :
  specificItemAlignment item toks = ofNat (countSpecificMatches item toks)
  ∧ (countSpecificMatches item toks ≤ length toks)%nat.
Proof.
  unfold specificItemAlignment, countSpecificMatches.
  case_bool_decide as Hnil.
  - split; [by rewrite ofNat_0 | lia].
  - split; [apply specific_fold; by rewrite ofNat_0|].
    apply (count_fold_bound _ _ 0).
Qed.

Lemma Math_max_ge_l x y : x ≤ Math_max x y.
Proof.
  unfold Math_max. case_decide; [by apply Qclt_le_weak | apply Qcle_refl].
Qed.

Lemma Math_max_ge_r x y : y ≤ Math_max x y.
Proof.
  unfold Math_max. case_decide; [apply Qcle_refl | by apply Qcnot_lt_le].
Qed.

Lemma fold_Math_max_ge {A} (f : A → Qc) (xs : list A) (b : Qc) :
  b ≤ fold_left (λ best c, Math_max best (f c)) xs b.
Proof.
  revert b. induction xs as [|x xs IH]; intros b; simpl; [apply Qcle_refl|].
  eapply Qcle_trans; [apply Math_max_ge_l | apply IH].
Qed.

Lemma fold_Math_max_elem {A} (f : A → Qc) (xs : list A) (b : Qc) x :
  x ∈ xs → f x ≤ fold_left (λ best c, Math_max best (f c)) xs b.
Proof.
  revert b.
  induction xs as [|y xs IH]; intros b Hx; [by apply elem_of_nil in Hx|].
  simpl. apply elem_of_cons in Hx as [->|Hx]; [|by apply IH].
  eapply Qcle_trans; [apply Math_max_ge_r | apply fold_Math_max_ge].
Qed.

Lemma Math_max_list_ge x xs : x ≤ Math_max_list x xs.
Proof.
  unfold Math_max_list. revert x.
  induction xs as [|y xs IH]; intros x; simpl; [apply Qcle_refl|].
  eapply Qcle_trans; [apply Math_max_ge_l | apply IH].
Qed.

Lemma fold_sum_nonneg {A} (f : A → Qc) (xs : list A) (s : Qc) :
  (∀ x, 0 ≤ f x) → 0 ≤ s → 0 ≤ fold_left (λ score v, score + f v) xs s.
Proof.
  intros Hf. revert s. induction xs as [|x xs IH]; intros s Hs; simpl; [done|].
  apply IH. by apply Qcplus_nonneg_nonneg.
Qed.

Lemma colourAlignment_lower item (w : Colour → Qc) :
  (∀ c, 0 ≤ w c) → - num 0.5 ≤ colourAlignment item w.
Proof.
  intros Hw. unfold colourAlignment.
  case_bool_decide; [done|].
  set (best := fold_left _ (colours item) 0).
  assert (0 ≤ best) as Hbest by apply fold_Math_max_ge.
  assert (- num 0.5 ≤ best - num 0.5) as Hpen.
  { replace (- num 0.5) with (0 - num 0.5) by ring.
    by apply Qcplus_le_mono_r. }
  assert (- num 0.5 ≤ best) as Hbest'
    by (by eapply Qcle_trans; [|exact Hbest]).
  assert (0 ≤ num 0.2
              * Math_max_list (w black) (map w [white; grey; beige; brown]))
    as Hbonus.
  { apply Qcmult_nonneg_nonneg; [done|].
    eapply Qcle_trans; [apply (Hw black) | apply Math_max_list_ge]. }
  destruct (_ && _), (existsb isNeutral _); try done.
  - replace (- num 0.5) with (- num 0.5 + 0) by ring.
    by apply Qcplus_le_compat.
  - replace (- num 0.5) with (- num 0.5 + 0) by ring.
    by apply Qcplus_le_compat.
Qed.

(** X13.  The colour factor of an item for a request is at least -0.5, and
    at least 1 when the item has one of the hinted colours. *)
Theorem colourAlignment_of_request intent item :
  - num 0.5 ≤ colourAlignment item (wColour (buildWeights intent))
  ∧ ∀ c, c ∈ colours item → c ∈ colour_hints intent →
      num 1.0 ≤ colourAlignment item (wColour (buildWeights intent)).
Proof.
  split; [apply colourAlignment_lower, buildWeights_wColour_nonneg|].
  intros c Hc Hhint.
  set (w := wColour (buildWeights intent)).
  assert (num 1.0 ≤ w c) as Hw.
  { subst w. rewrite buildWeights_wColour_value.
    rewrite bool_decide_eq_false_2 by (by destruct Hhint).
    apply ofNat_pos. apply count_occ_In. by apply list_elem_of_In. }
  unfold colourAlignment. fold w.
  rewrite bool_decide_eq_false_2 by (by destruct Hc).
  set (best := fold_left _ (colours item) 0).
  assert (num 1.0 ≤ best) as Hbest.
  { eapply Qcle_trans; [exact Hw|]. by apply (fold_Math_max_elem w). }
  assert (existsb (λ c, bool_decide (0 < w c)) (colours item) = true) as ->.
  { apply existsb_exists. exists c. split; [by apply list_elem_of_In|].
    apply bool_decide_eq_true. by eapply Qclt_le_trans; [|exact Hw]. }
  rewrite andb_false_r.
  destruct (existsb isNeutral _); [|done].
  replace (num 1.0) with (num 1.0 + 0) by ring.
  apply Qcplus_le_compat; [done|].
  apply Qcmult_nonneg_nonneg; [done|].
  eapply Qcle_trans; [apply (buildWeights_wColour_nonneg intent black)|].
  apply Math_max_list_ge.
Qed.

(** X14.  The vibe factor of an item for a request is at least -0.3. *)
Theorem vibeAlignment_of_request intent item :
  - num 0.3 ≤ vibeAlignment item (wVibe (buildWeights intent)).
Proof.
  unfold vibeAlignment. case_bool_decide; [done|].
  set (score := fold_left _ (vibes item) 0).
  assert (0 ≤ score) as Hs.
  { apply fold_sum_nonneg; [|done]. intros v.
    rewrite buildWeights_wVibe_value. apply ofNat_nonneg. }
  destruct (_ && _).
  - replace (- num 0.3) with (0 - num 0.3) by ring.
    by apply Qcplus_le_mono_r.
  - by eapply Qcle_trans; [|exact Hs].
Qed.

(** ** Pair terms *)

Lemma NoDup_List_filter {A} (f : A → bool) (l : list A) :
  NoDup l → NoDup (List.filter f l).
Proof.
  induction 1 as [|x l Hx Hl IH]; simpl; [constructor|].
  destruct (f x); [|done]. constructor; [|done].
  intros Hin. apply elem_of_List_filter in Hin as [? _]. done.
Qed.

Lemma count_fold_length {A} (f : A → bool) (xs : list A) (n : nat) :
  fold_left (λ shared v, if f v then S shared else shared) xs n
  = (n + length (List.filter f xs))%nat.
Proof.
  revert n. induction xs as [|x xs IH]; intros n; simpl; [lia|].
  rewrite IH. destruct (f x); simpl; lia.
Qed.

(** Two duplicate-free lists have as many members of the one in the other
    as of the other in the one. *)
Lemma shared_sym {A} `{EqDecision A} (va vb : list A) :
  NoDup va → NoDup vb →
  length (List.filter (λ v, bool_decide (v ∈ vb)) va)
  = length (List.filter (λ v, bool_decide (v ∈ va)) vb).
Proof.
  intros Ha Hb. apply Permutation_length.
  apply NoDup_Permutation; [by apply NoDup_List_filter..|].
  intros x. rewrite !elem_of_List_filter, !bool_decide_eq_true. tauto.
Qed.

Lemma existsb_swap {A B} (P : A → B → bool) (xs : list A) (ys : list B) :
  existsb (λ x, existsb (λ y, P x y) ys) xs
  = existsb (λ y, existsb (λ x, P x y) xs) ys.
Proof.
  apply eq_true_iff_eq. rewrite !existsb_exists.
  split.
  - intros (x & Hx & Hy). apply existsb_exists in Hy as (y & Hy & HP).
    exists y. split; [done|]. apply existsb_exists. eauto.
  - intros (y & Hy & Hx). apply existsb_exists in Hx as (x & Hx & HP).
    exists x. split; [done|]. apply existsb_exists. eauto.
Qed.

Lemma existsb_pointwise {A} (f g : A → bool) (l : list A) :
  (∀ x, f x = g x) → existsb f l = existsb g l.
Proof.
  intros Hfg. induction l as [|x l IH]; simpl; [done|]. by rewrite Hfg, IH.
Qed.

(** X15.  The vibe, sport and team pair terms of the outfit score are
    symmetric in the two items, in every sport context. *)
Theorem pair_terms_sym a b sportContext :
  pairVibeCompatibility a b = pairVibeCompatibility b a
  ∧ pairSportCompatibility a b sportContext
    = pairSportCompatibility b a sportContext
  ∧ pairTeamCompatibility a b = pairTeamCompatibility b a.
Proof.
  split; [|split].
  - unfold pairVibeCompatibility.
    rewrite !(count_fold_length _ _ 0). simpl.
    rewrite (shared_sym (uniq (vibes a)) (uniq (vibes b)))
      by apply uniq_NoDup.
    f_equal.
    destruct (bool_decide (streetwear ∈ uniq (vibes a))),
             (bool_decide (sporty ∈ uniq (vibes b))),
             (bool_decide (sporty ∈ uniq (vibes a))),
             (bool_decide (streetwear ∈ uniq (vibes b))),
             (bool_decide (chic ∈ uniq (vibes a))),
             (bool_decide (minimal ∈ uniq (vibes b))),
             (bool_decide (minimal ∈ uniq (vibes a))),
             (bool_decide (chic ∈ uniq (vibes b))); simpl; ring.
  - unfold pairSportCompatibility.
    destruct (sportOf a), (sportOf b), sportContext; reflexivity.
  - unfold pairTeamCompatibility.
    rewrite (orb_comm (bool_decide (map normalizeText (teamsOf a) = []))).
    destruct (_ || _); [done|].
    rewrite existsb_swap.
    erewrite existsb_pointwise; [reflexivity|]. intros y. simpl.
    apply existsb_pointwise. intros x.
    rewrite (String.eqb_sym x y).
    by destruct (truthy x), (truthy y), (String.eqb y x), (includes x y),
      (includes y x).
Qed.

(** X16.  An outfit of one item scores what the item scores: no pair term
    applies, so the outfit path and the single-item path of [main] agree. *)
Theorem scoreOutfit_single cat it singleScores weights :
  scoreOutfit (oneSlot cat it) singleScores weights
  = default 0 (singleScores !! id it).
Proof. destruct cat; unfold scoreOutfit; simpl; ring. Qed.

Lemma buildSingleScores_from items weights (m : gmap string Qc) k :
  fold_left (λ m it, <[id it := scoreSingleItem it weights]> m) items m !! k
  = match last (List.filter (λ it, bool_decide (id it = k)) items) with
    | Some it => Some (scoreSingleItem it weights)
    | None => m !! k
    end.
Proof.
  revert m. induction items as [|it items IH]; intros m; [done|].
  cbn [fold_left List.filter]. rewrite IH. case_bool_decide as Hid.
  - destruct (List.filter _ items) as [|x l] eqn:Hf.
    + subst k. simpl. by rewrite lookup_insert_eq.
    + rewrite last_cons_cons. destruct (last (x :: l)) eqn:E; [done|].
      by apply last_None in E.
  - destruct (last _); [done|]. by rewrite lookup_insert_ne.
Qed.

(** X17.  The score map holds, for an id, the score of the last catalog item
    with that id, and nothing for an id no item has. *)
Theorem buildSingleScores_lookup items weights k :
  buildSingleScores items weights !! k
  = (λ it, scoreSingleItem it weights)
    <$> last (List.filter (λ it, bool_decide (id it = k)) items).
Proof.
  unfold buildSingleScores. rewrite buildSingleScores_from.
  by destruct (last _).
Qed.

(** ** Candidate selection, continued *)


Lemma max_list_attained (l : list nat) : l ≠ [] → max_list l ∈ l.
Proof.
  induction l as [|x l IH]; [done|]. intros _. simpl.
  destruct l as [|y l'].
  - simpl. rewrite Nat.max_0_r. left.
  - destruct (Nat.max_spec x (max_list (y :: l'))) as [[_ ->]|[_ ->]].
    + right. by apply IH.
    + left.
Qed.

Lemma keepBestSpecific_nonempty weights pool :
  pool ≠ [] → keepBestSpecific weights pool ≠ [].
Proof.
  intros Hpool. unfold keepBestSpecific.
  destruct (_ && _); [|done].
  case_bool_decide; [|done].
  set (counted := map _ pool).
  assert (max_list (map snd counted) ∈ map snd counted) as Hmax.
  { apply max_list_attained. subst counted. by destruct pool. }
  apply list_elem_of_fmap in Hmax as ([y n] & Hn & Hy). simpl in Hn.
  intros Hnil.
  assert (y ∈ map fst (List.filter
            (λ c, bool_decide (c.2 = max_list (map snd counted))) counted))
    as Hin.
  { apply list_elem_of_fmap. exists (y, n). split; [done|].
    apply elem_of_List_filter. split; [done|]. by apply bool_decide_eq_true. }
  rewrite Hnil in Hin. by apply elem_of_nil in Hin.
Qed.


Lemma stageFilters_sub_gender base intent weights stage :
  stageFilters base intent weights stage
  ⊆ List.filter (λ it, genderCompatible (gender it) (target_gender intent))
      base.
Proof.
  unfold stageFilters. generalize (List.filter
    (λ it, genderCompatible (gender it) (target_gender intent)) base).
  intros pool.
  destruct_ifs;
  repeat (etrans; [apply List_filter_subseteq|]); reflexivity.
Qed.

Lemma stagePool_gender base intent weights stage x :
  x ∈ stagePool base intent weights stage →
  x ∈ base ∧ genderCompatible (gender x) (target_gender intent) = true.
Proof.
  intros Hx. apply keepBestSpecific_subseteq, stageFilters_sub_gender in Hx.
  by apply elem_of_List_filter in Hx.
Qed.

(** The stage loop returns the base when every pool is empty, and otherwise
    the pool of the first stage whose pool is not empty. *)
Lemma firstNonEmptyStage_cases todo base intent weights :
  (firstNonEmptyStage todo base intent weights = base
   ∧ Forall (λ st, stagePool base intent weights st = []) todo)
  ∨ ∃ k st, todo !! k = Some st
      ∧ firstNonEmptyStage todo base intent weights
        = stagePool base intent weights st
      ∧ stagePool base intent weights st ≠ []
      ∧ ∀ j st', (j < k)%nat → todo !! j = Some st' →
          stagePool base intent weights st' = [].
Proof.
  induction todo as [|stage todo IH]; simpl.
  - left. by split.
  - destruct (nonEmpty (stagePool base intent weights stage)) eqn:Hne.
    + right. exists 0%nat, stage. repeat split; [by apply nonEmpty_true|].
      intros j st' Hj. lia.
    + assert (stagePool base intent weights stage = []) as Hnil
        by (by destruct (stagePool base intent weights stage)).
      destruct IH as [[Heq Hall]|(k & st & Hk & Heq & Hst & Hbefore)].
      * left. split; [done|]. by constructor.
      * right. exists (S k), st. repeat split; try done.
        intros [|j] st' Hj Hst'; simpl in Hst'; [by simplify_eq|].
        apply (Hbefore j); [lia|done].
Qed.

Lemma roleBase_subseteq items cat intent weights x :
  x ∈ roleBase items cat intent weights → x ∈ items ∧ category x = cat.
Proof.
  unfold roleBase.
  set (base := List.filter _ items).
  assert (x ∈ base → x ∈ items ∧ category x = cat) as Hbase.
  { intros [? ?%bool_decide_eq_true]%elem_of_List_filter. done. }
  case_bool_decide; [|done].
  destruct (nonEmpty _); [|done].
  intros [? _]%elem_of_List_filter. by apply Hbase.
Qed.

Lemma filterCandidatesForRole_in_base items cat intent weights x :
  x ∈ filterCandidatesForRole items cat intent weights →
  x ∈ roleBase items cat intent weights.
Proof.
  unfold filterCandidatesForRole.
  destruct (firstNonEmptyStage_cases stages
              (roleBase items cat intent weights) intent weights)
    as [[-> _]|(k & st & _ & -> & _)]; [done|].
  intros Hx. by apply stagePool_gender in Hx as [? _].
Qed.

(** X18.  Every item [filterCandidatesForRole] returns is an item of the
    catalog whose category is the role. *)
Theorem filterCandidatesForRole_from_role items cat intent weights x :
  x ∈ filterCandidatesForRole items cat intent weights →
  x ∈ items ∧ category x = cat.
Proof.
  intros Hx.
  by apply filterCandidatesForRole_in_base, roleBase_subseteq in Hx.
Qed.

(** The last stage keeps the gender-compatible items of the base. *)
Lemma last_stage_nonempty base intent weights y :
  y ∈ base → genderCompatible (gender y) (target_gender intent) = true →
  ∃ st, stages !! 3%nat = Some st ∧ stagePool base intent weights st ≠ [].
Proof.
  intros Hy Hg. eexists. split; [reflexivity|].
  unfold stagePool. apply keepBestSpecific_nonempty.
  unfold stageFilters. simpl. intros Hnil.
  assert (y ∈ List.filter
            (λ it, genderCompatible (gender it) (target_gender intent)) base)
    as Hin by (by apply elem_of_List_filter).
  rewrite Hnil in Hin. by apply elem_of_nil in Hin.
Qed.

(** With a gender-compatible item in the base the result is the pool of a
    stage, and the pools of the stages before it are empty. *)
Lemma from_a_stage items cat intent weights y :
  y ∈ roleBase items cat intent weights →
  genderCompatible (gender y) (target_gender intent) = true →
  ∃ k st, stages !! k = Some st
    ∧ filterCandidatesForRole items cat intent weights
      = stagePool (roleBase items cat intent weights) intent weights st
    ∧ ∀ j st', (j < k)%nat → stages !! j = Some st' →
        stagePool (roleBase items cat intent weights) intent weights st' = [].
Proof.
  intros Hy Hg. unfold filterCandidatesForRole.
  destruct (firstNonEmptyStage_cases stages
              (roleBase items cat intent weights) intent weights)
    as [[_ Hall]|(k & st & Hk & Heq & _ & Hb)].
  - destruct (last_stage_nonempty _ intent weights y Hy Hg)
      as (st & Hst & Hne).
    exfalso. apply Hne.
    eapply Forall_forall in Hall; [exact Hall|].
    by eapply list_elem_of_lookup_2.
  - by exists k, st.
Qed.



(** X21.  For a request with a sport context, when the role has an item
    relevant to the sport or the team, only such items are returned. *)
Theorem filterCandidatesForRole_sport items cat intent weights :
  sport_context intent ≠ none →
  (∃ y, y ∈ items ∧ category y = cat
        ∧ isSportRelevantForContext y (sport_context intent)
            (teamTokens weights) = true) →
  ∀ x, x ∈ filterCandidatesForRole items cat intent weights →
    isSportRelevantForContext x (sport_context intent) (teamTokens weights)
    = true.
Proof.
  intros Hctx (y & Hy & Hcat & Hrel) x Hx.
  apply filterCandidatesForRole_in_base in Hx. revert Hx.
  unfold roleBase. rewrite bool_decide_eq_true_2 by done.
  set (base := List.filter _ items). set (sporty := List.filter _ base).
  assert (y ∈ sporty) as Hys.
  { apply elem_of_List_filter. split; [|done].
    apply elem_of_List_filter. split; [done|]. by apply bool_decide_eq_true. }
  destruct sporty as [|z sporty'] eqn:Hs; [by apply elem_of_nil in Hys|].
  simpl. rewrite <- Hs. by intros [_ ?]%elem_of_List_filter.
Qed.

Lemma third_stage_non_sport base intent weights st :
  sport_context intent = none → stages !! 2%nat = Some st →
  (∃ y, y ∈ base ∧ genderCompatible (gender y) (target_gender intent) = true
        ∧ sportOf y = none) →
  stageFilters base intent weights st
  = List.filter (λ it, bool_decide (sportOf it = none))
      (List.filter
         (λ it, genderCompatible (gender it) (target_gender intent)) base).
Proof.
  intros Hctx [= <-] (y & Hy & Hg & Hs). unfold stageFilters. simpl.
  rewrite Hctx. simpl.
  set (pool := List.filter _ base). set (nonSport := List.filter _ pool).
  assert (y ∈ nonSport) as Hin.
  { apply elem_of_List_filter. split; [by apply elem_of_List_filter|].
    by apply bool_decide_eq_true. }
  by destruct nonSport; [apply elem_of_nil in Hin|].
Qed.

(** X22.  For a request without sport context, when the role has a
    gender-compatible item without sport, no sport item is returned. *)
Theorem filterCandidatesForRole_prefers_non_sport items cat intent weights :
  sport_context intent = none →
  (∃ y, y ∈ items ∧ category y = cat
        ∧ genderCompatible (gender y) (target_gender intent) = true
        ∧ sportOf y = none) →
  ∀ x, x ∈ filterCandidatesForRole items cat intent weights →
    sportOf x = none.
Proof.
  intros Hctx (y & Hy & Hcat & Hg & Hs) x.
  assert (roleBase items cat intent weights
          = List.filter (λ it, bool_decide (category it = cat)) items)
    as Hbase.
  { unfold roleBase. by rewrite Hctx. }
  assert (y ∈ roleBase items cat intent weights) as Hyb.
  { rewrite Hbase. apply elem_of_List_filter. split; [done|].
    by apply bool_decide_eq_true. }
  destruct (from_a_stage items cat intent weights y Hyb Hg)
    as (k & st & Hk & -> & Hbefore).
  set (base := roleBase items cat intent weights) in *.
  assert (∃ st2, stages !! 2%nat = Some st2) as [st2 Hst2] by (by eexists).
  pose proof (third_stage_non_sport base intent weights st2 Hctx Hst2
                (ex_intro _ y (conj Hyb (conj Hg Hs)))) as Hthird.
  assert (stagePool base intent weights st2 ≠ []) as Hne.
  { unfold stagePool. apply keepBestSpecific_nonempty. rewrite Hthird.
    intros Hnil.
    assert (y ∈ List.filter (λ it, bool_decide (sportOf it = none))
              (List.filter (λ it, genderCompatible (gender it)
                                    (target_gender intent)) base)) as Hin.
    { apply elem_of_List_filter. split; [by apply elem_of_List_filter|].
      by apply bool_decide_eq_true. }
    rewrite Hnil in Hin. by apply elem_of_nil in Hin. }
  assert (k ≤ 2)%nat as Hle.
  { destruct (decide (k ≤ 2)%nat) as [|Hgt]; [done|].
    exfalso. apply Hne. apply (Hbefore 2%nat); [lia | done]. }
  intros Hx. apply keepBestSpecific_subseteq in Hx.
  assert (x ∈ stageFilters base intent weights st2) as Hx2.
  { destruct k as [|[|[|k]]]; [| | |lia].
    - assert (∃ st1, stages !! 1%nat = Some st1) as [st1 Hst1]
        by (by eexists).
      eapply stageFilters_widen; [exact Hst1 | exact Hst2 |].
      eapply stageFilters_widen; [exact Hk | exact Hst1 | exact Hx].
    - eapply stageFilters_widen; [exact Hk | exact Hst2 | exact Hx].
    - by simplify_eq. }
  rewrite Hthird in Hx2.
  by apply elem_of_List_filter in Hx2 as [_ ?%bool_decide_eq_true].
Qed.

(** ** Shortlists *)

Lemma sortByScore_decorated {A} (f : A → Qc) (l : list A) :
  map fst (sortByScore snd (map (λ it, (it, f it)) l)) = sortByScore f l.
Proof.
  induction l as [|x l IH]; simpl; [done|].
  rewrite <- IH. clear IH.
  assert (Forall (λ p : A * Qc, p.2 = f p.1)
            (sortByScore snd (map (λ it, (it, f it)) l))) as Hall.
  { apply Forall_forall. intros p Hp.
    apply list_elem_of_In in Hp.
    apply (Permutation_in _ (sortByScore_perm snd _)) in Hp.
    apply in_map_iff in Hp as (y & <- & _). done. }
  induction Hall as [|[y s] l' Hy _ IH]; simpl; [done|].
  simpl in Hy. subst s.
  case_decide; simpl; [by rewrite IH|done].
Qed.

Lemma fold_insert_lookup {K V} `{EqDecision K} (F : K → V) (ks : list K)
    (init : K → V) (k : K) :
  fold_left (λ m c, <[c := F c]> m) ks init k
  = if decide (k ∈ ks) then F k else init k.
Proof.
  revert init. induction ks as [|c ks IH]; intros init; cbn [fold_left].
  - by destruct (decide (k ∈ [])) as [?%elem_of_nil|].
  - rewrite IH.
    destruct (decide (k ∈ ks)) as [Hin|Hin],
             (decide (k ∈ c :: ks)) as [Hin'|Hin']; try done.
    + exfalso. apply Hin'. by right.
    + apply elem_of_cons in Hin' as [->|?]; [|done].
      by rewrite fn_lookup_insert.
    + rewrite fn_lookup_insert_ne; [done|]. intros ->. apply Hin'. left.
Qed.

Lemma descending_take {A} (score : A → Qc) (l : list A) n :
  descending score l → descending score (take n l).
Proof.
  unfold descending. intros Hl. revert n.
  induction Hl as [|x l Hl IH Hx]; intros [|n]; simpl; try constructor.
  - apply IH.
  - apply Forall_forall. intros y Hy.
    apply subseteq_take in Hy.
    by eapply Forall_forall in Hx.
Qed.

(** The shortlist of a required role is the head of its pool sorted by
    item score. *)
Lemma candidatesByCat_closed items intent weights limit cats cat :
  candidatesByCat items intent weights limit cats cat
  = if decide (cat ∈ cats)
    then take limit (sortByScore (λ it, scoreSingleItem it weights)
                       (filterCandidatesForRole items cat intent weights))
    else [].
Proof.
  unfold candidatesByCat.
  rewrite (fold_insert_lookup
    (λ cat, map fst (take limit (sortByScore snd
       (map (λ it, (it, scoreSingleItem it weights))
            (filterCandidatesForRole items cat intent weights)))))).
  case_decide; [|done].
  by rewrite <- firstn_map, sortByScore_decorated.
Qed.

(** X23.  The shortlist of a role has at most [per_role_limit] items, in
    descending order of item score, all from the pool
    [filterCandidatesForRole] gives for a required role; the shortlist of a
    role that is not required is empty. *)
Theorem candidatesByCat_shortlist items intent weights limit cats cat :
  let shortlist := candidatesByCat items intent weights limit cats cat in
  (length shortlist ≤ limit)%nat
  ∧ descending (λ it, scoreSingleItem it weights) shortlist
  ∧ (∀ x, x ∈ shortlist →
       x ∈ filterCandidatesForRole items cat intent weights ∧ cat ∈ cats)
  ∧ (cat ∉ cats → shortlist = []).
Proof.
  intros shortlist. subst shortlist. rewrite candidatesByCat_closed.
  case_decide as Hcat.
  - repeat split; try done.
    + rewrite length_take. lia.
    + apply descending_take, sortByScore_descending.
    + rename select (_ ∈ take _ _) into Hi. apply subseteq_take in Hi.
      apply list_elem_of_In in Hi.
      apply list_elem_of_In.
      by apply (Permutation_in _ (sortByScore_perm _ _)) in Hi.
  - repeat split; try done; try (simpl; lia); try apply SSorted_nil;
      by rename select (_ ∈ []) into Hnil; apply elem_of_nil in Hnil.
Qed.

(** ** Ranking *)

Lemma insertByScore_filter_eq {A} (score : A → Qc) (s : Qc) x l :
  List.filter (λ y, bool_decide (score y = s)) (insertByScore score x l)
  = List.filter (λ y, bool_decide (score y = s)) (x :: l).
Proof.
  induction l as [|y l IH]; [done|].
  cbn [insertByScore]. case_decide as Hlt; [|done].
  cbn [List.filter] in *. rewrite IH.
  destruct (bool_decide (score x = s)) eqn:Hx; [|done].
  apply bool_decide_eq_true in Hx.
  rewrite bool_decide_eq_false_2; [done|].
  intros Hy. rewrite Hx, Hy in Hlt. by apply Qclt_not_eq in Hlt.
Qed.

Lemma sortByScore_stable {A} (score : A → Qc) (s : Qc) l :
  List.filter (λ y, bool_decide (score y = s)) (sortByScore score l)
  = List.filter (λ y, bool_decide (score y = s)) l.
Proof.
  induction l as [|x l IH]; [done|].
  cbn [sortByScore foldr]. rewrite insertByScore_filter_eq.
  cbn [List.filter]. fold (sortByScore score l). by rewrite IH.
Qed.

(** X24.  The sort of [main] rearranges the entries into descending order of
    score and keeps entries of equal score in their order. *)
Theorem sortByScore_sorts {A} (score : A → Qc) (l : list A) :
  sortByScore score l ≡ₚ l
  ∧ descending score (sortByScore score l)
  ∧ ∀ s, List.filter (λ y, bool_decide (score y = s)) (sortByScore score l)
         = List.filter (λ y, bool_decide (score y = s)) l.
Proof.
  split; [apply sortByScore_perm|]. split; [apply sortByScore_descending|].
  intros s. apply sortByScore_stable.
Qed.

(** ** Sampling, continued *)

Lemma lastWithIndex_some {T} (items : list T) :
  items ≠ [] → ∃ p, lastWithIndex items = Some p.
Proof.
  intros Hne. unfold lastWithIndex.
  destruct (last items) eqn:Hl; [by eexists|].
  by apply last_None in Hl.
Qed.

(** X25.  [choiceWeighted] returns null exactly when there is no item or the
    total weight is not positive, for every draw; what it returns otherwise
    is an entry of [items]. *)
Theorem choiceWeighted_result {T} (items : list T) scores g :
  ((choiceWeighted items scores g).1 = None ↔ items = [] ∨ sum scores ≤ 0)
  ∧ ∀ j it, (choiceWeighted items scores g).1 = Some (j, it) →
      items !! j = Some it.
Proof.
  split; [|intros j it; apply choiceWeighted_lookup].
  unfold choiceWeighted.
  destruct (bool_decide (items = [])) eqn:Hi; simpl.
  { apply bool_decide_eq_true in Hi. split; [by left | done]. }
  apply bool_decide_eq_false in Hi.
  destruct (bool_decide (sum scores ≤ 0)) eqn:Hs; simpl.
  { apply bool_decide_eq_true in Hs. split; [by right | done]. }
  apply bool_decide_eq_false in Hs.
  unfold bind, Math_random, ret; simpl.
  destruct (choiceWeighted_scan _ _ _ _) as [p|]; simpl.
  - split; [done|]. by intros [Hx|Hx].
  - destruct (lastWithIndex_some items Hi) as [p ->].
    split; [done|]. by intros [Hx|Hx].
Qed.

Lemma afterPick_from st idx pick (pool : list Candidate) :
  topBand st !! idx = Some pick →
  chosen st ⊆ pool → topBand st ⊆ pool →
  chosen (afterPick st idx pick) ⊆ pool
  ∧ topBand (afterPick st idx pick) ⊆ pool.
Proof.
  intros Hidx Hc Hb.
  assert (pick ∈ pool) as Hp by (by eapply Hb, list_elem_of_lookup_2).
  assert (delete idx (topBand st) ⊆ pool) as Hd.
  { intros x Hx. apply Hb. revert Hx.
    apply sublist_subseteq, sublist_delete. }
  unfold afterPick. case_decide; simpl; (split; [|done]); [done|].
  intros x [? | ->%list_elem_of_singleton]%elem_of_app;
    [by apply Hc | done].
Qed.

Lemma sampleLoop_from fuel poolSize epsilon st g (pool : list Candidate) :
  chosen st ⊆ pool → topBand st ⊆ pool →
  chosen (sampleLoop fuel poolSize epsilon st g).1 ⊆ pool.
Proof.
  revert st g. induction fuel as [|fuel IH]; intros st g Hc Hb; simpl; [done|].
  case_bool_decide; [|done].
  destruct (topBand st) as [|first band] eqn:Hband; [done|].
  unfold bind. destruct (sampleStep epsilon st first g) as [st' g'] eqn:Hstep.
  destruct (sampleStep_picks epsilon st first g) as (idx & pick & Hidx & Heq).
  { by rewrite Hband. }
  rewrite Hstep in Heq. simpl in Heq. subst st'.
  rewrite <- Hband in Hb.
  destruct (afterPick_from st idx pick pool Hidx Hc Hb). by apply IH.
Qed.

Lemma bandOf_subseteq poolSize (outfits : list Candidate) :
  bandOf poolSize (sortByScore cand_score outfits) ⊆ outfits.
Proof.
  intros x Hx. apply subseteq_take in Hx.
  apply list_elem_of_In. apply list_elem_of_In in Hx.
  by apply (Permutation_in _ (sortByScore_perm _ _)) in Hx.
Qed.

(** X26.  Every entry the sampling loop ends with is one of the scored
    candidates it was given, for every epsilon and every stream of draws. *)
Theorem diversitySample_from_candidates outfits poolSize epsilon g :
  chosen (diversitySample outfits poolSize epsilon g).1 ⊆ outfits.
Proof.
  unfold diversitySample. apply sampleLoop_from; simpl.
  - by intros x ?%elem_of_nil.
  - apply bandOf_subseteq.
Qed.




(** ** The whole pipeline *)

Lemma forEach_fmap {A B C} (f : B → C) (xs : list A)
    (body : A → Rand (list B)) (pure : A → list C) g :
  (∀ x g, f <$> (body x g).1 = pure x) →
  f <$> (forEach xs body g).1 = flat_map pure xs.
Proof.
  intros Hbody. revert g. induction xs as [|x xs IH]; intros g; simpl; [done|].
  unfold bind. specialize (Hbody x g). destruct (body x g) as [ys g'].
  specialize (IH g'). destruct (forEach xs body g') as [zs g''].
  simpl in *. by rewrite fmap_app, Hbody, IH.
Qed.

Lemma flat_map_fmap {A B C} (f : B → C) (k : A → list B) (xs : list A) :
  f <$> flat_map k xs = flat_map (λ x, f <$> k x) xs.
Proof.
  induction xs as [|x xs IH]; simpl; [done|]. by rewrite fmap_app, IH.
Qed.

(** The jitter changes the scores and not the outfits assembled. *)
Lemma assemble_outfits requiredCats byCat isOutfit singleScores weights j g :
  cand_outfit
    <$> (assemble requiredCats byCat isOutfit singleScores weights j g).1
  = cand_outfit
    <$> rawCandidates requiredCats byCat isOutfit singleScores weights.
Proof.
  unfold assemble, rawCandidates. destruct isOutfit.
  - case_bool_decide.
    + rewrite flat_map_fmap. apply forEach_fmap. intros m g1.
      destruct (_ && _).
      * rewrite flat_map_fmap. apply forEach_fmap. intros sh g2. done.
      * done.
    + rewrite flat_map_fmap. apply forEach_fmap. intros t g1.
      rewrite flat_map_fmap. apply forEach_fmap. intros b g2.
      destruct (_ && _).
      * rewrite flat_map_fmap. apply forEach_fmap. intros sh g3. done.
      * done.
  - rewrite flat_map_fmap. apply forEach_fmap. intros cat g1.
    rewrite flat_map_fmap. apply forEach_fmap. intros it g2. done.
Qed.

Lemma fmap_nonEmpty {A B} (f : A → B) (l : list A) :
  nonEmpty (f <$> l) = nonEmpty l.
Proof. by destruct l. Qed.

(** X28.  For every catalog, intent, options and stream of draws, [main]
    fails exactly when no candidate can be assembled; otherwise its results
    have pairwise distinct signatures, are at most [pool_size] many, and
    each is an outfit of one of the assembled candidates. *)
Theorem recommend_results items intent opts g :
  ((recommend items intent opts g).1 = None
   ↔ unperturbedCandidates items intent opts = [])
  ∧ ∀ results, (recommend items intent opts g).1 = Some results →
      NoDup (sigOf <$> results)
      ∧ (length results ≤ pool_size opts)%nat
      ∧ cand_outfit <$> results
        ⊆ cand_outfit <$> unperturbedCandidates items intent opts.
Proof.
  unfold recommend, unperturbedCandidates. simpl. unfold bind.
  match goal with
  | |- context [assemble ?rc ?bc ?io ?ss ?w ?j g] =>
      pose proof (assemble_outfits rc bc io ss w j g) as Hraw;
      destruct (assemble rc bc io ss w j g) as [outfits g'];
      set (raw := rawCandidates rc bc io ss w) in *
  end.
  simpl in Hraw.
  assert (nonEmpty outfits = nonEmpty raw) as Hne
    by (by rewrite <- (fmap_nonEmpty cand_outfit), Hraw, fmap_nonEmpty).
  destruct (nonEmpty outfits) eqn:Ho.
  - destruct (diversitySample outfits (pool_size opts)
                (effectiveEpsilon opts) g') as [final g''] eqn:Hfinal.
    simpl. split.
    + split; [done|]. intros Hnil. by rewrite Hnil in Hne.
    + intros results [= <-].
      set (band := bandOf (pool_size opts) (sortByScore cand_score outfits)).
      assert (chosen final ⊆ outfits) as Hfrom.
      { pose proof (sampleLoop_from (length band) (pool_size opts)
                      (effectiveEpsilon opts)
                      {| chosen := []; usedIds := ∅; topBand := band |}
                      g' outfits) as Hsub.
        unfold diversitySample in Hfinal. fold band in Hfinal.
        rewrite Hfinal in Hsub. apply Hsub; simpl.
        - by intros x ?%elem_of_nil.
        - apply bandOf_subseteq. }
      assert (samplerInv (pool_size opts) (length band) final)
        as [Hd _ Hc _].
      { pose proof (sampleLoop_inv (length band) (pool_size opts)
                      (length band) (effectiveEpsilon opts)
                      {| chosen := []; usedIds := ∅; topBand := band |} g')
          as Hinv.
        unfold diversitySample in Hfinal. fold band in Hfinal.
        rewrite Hfinal in Hinv. apply Hinv.
        constructor; simpl; [apply NoDup_nil_2 | | lia | lia].
        intros s. rewrite elem_of_nil. set_solver. }
      split; [done|]. split; [done|].
      rewrite <- Hraw. intros o (c & -> & Hc')%list_elem_of_fmap.
      apply list_elem_of_fmap_2. by apply Hfrom.
  - simpl. split; [|done]. split; [|done]. intros _. by destruct raw.
Qed.

(** ** Helpers of the indexer and of [lib/text.ts] *)

Lemma nearest_fold_inv rgb (keys : list Colour) (acc : Colour * option Qc) :
  (∀ bestD, acc.2 = Some bestD → bestD = canonDistance acc.1 rgb) →
  keys ≠ [] ∨ is_Some acc.2 →
  ∃ d, (fold_left (nearestStep rgb) keys acc).2 = Some d
     ∧ d = canonDistance (fold_left (nearestStep rgb) keys acc).1 rgb
     ∧ (∀ c, c ∈ keys → d ≤ canonDistance c rgb)
     ∧ (∀ bestD, acc.2 = Some bestD → d ≤ bestD).
Proof.
  revert acc.
  induction keys as [|k keys IH]; intros [c0 [b0|]] Hacc; simpl.
  - intros _. exists b0. split; [done|]. split; [by apply Hacc|]. split.
    + by intros ? ?%elem_of_nil.
    + intros ? [= <-]. apply Qcle_refl.
  - intros [?|[? ?]]; done.
  - intros _. unfold nearestStep at 2 4. simpl.
    case_decide as Hlt.
    + destruct (IH (k, Some (canonDistance k rgb)))
        as (d & Hd & Heq & Hall & Hb).
      { by intros ? [= <-]. } { right. by eexists. }
      exists d. split; [done|]. split; [done|]. split.
      * intros c [->|Hc]%elem_of_cons; [by apply Hb | by apply Hall].
      * intros ? [= <-]. eapply Qcle_trans; [by apply Hb|].
        by apply Qclt_le_weak.
    + destruct (IH (c0, Some b0)) as (d & Hd & Heq & Hall & Hb).
      { done. } { right. by eexists. }
      exists d. split; [done|]. split; [done|]. split; [|done].
      intros c [->|Hc]%elem_of_cons; [|by apply Hall].
      eapply Qcle_trans; [by apply Hb|]. by apply Qcnot_lt_le.
  - intros _. unfold nearestStep at 2 4. simpl.
    destruct (IH (k, Some (canonDistance k rgb)))
      as (d & Hd & Heq & Hall & Hb).
    { by intros ? [= <-]. } { right. by eexists. }
    exists d. split; [done|]. split; [done|]. split; [|done].
    intros c [->|Hc]%elem_of_cons; [by apply Hb | by apply Hall].
Qed.

Lemma colour_keys_all c : c ∈ colour_keys.
Proof. destruct c; apply (bool_decide_unpack _); reflexivity. Qed.

(** X29.  [nearestCanon] returns a palette colour at least as near to the
    given RGB value as every other palette colour, and returns each palette
    colour for that colour's own table entry. *)
Theorem nearestCanon_nearest rgb :
  (∀ c, canonDistance (nearestCanon rgb) rgb ≤ canonDistance c rgb)
  ∧ (∀ c, nearestCanon (CANON c) = c).
Proof.
  split.
  - intros c. unfold nearestCanon.
    destruct (nearest_fold_inv rgb colour_keys (black, None))
      as (d & Hd & Heq & Hall & _).
    { done. } { by left. }
    fold (nearestStep rgb) in *. rewrite <- Heq. apply Hall, colour_keys_all.
  - intros c. destruct c; vm_compute; reflexivity.
Qed.

Lemma add_NoDup (x : string) (out : list string) :
  NoDup out → NoDup (if decide (x ∈ out) then out else out ++ [x]).
Proof.
  intros Hnd. case_decide; [done|]. apply NoDup_app. split; [done|].
  split; [|apply NoDup_singleton]. by intros z Hz ->%list_elem_of_singleton.
Qed.

Lemma add_head (x : string) (out : list string) :
  out ≠ [] → head (if decide (x ∈ out) then out else out ++ [x]) = head out.
Proof.
  intros Hne. case_decide; [done|]. destruct out; [by destruct Hne | done].
Qed.

Lemma add_nonempty (x : string) (out : list string) :
  out ≠ [] → (if decide (x ∈ out) then out else out ++ [x]) ≠ [].
Proof. intros Hne. case_decide; [done|]. by destruct out. Qed.

(** X30.  The aliases of a name are pairwise distinct; there is none exactly
    when the name normalises to the empty string, and otherwise the first
    alias is the normalised name. *)
Theorem aliases_set raw :
  NoDup (aliases raw)
  ∧ (aliases raw = [] ↔ normLoose raw = ""%string)
  ∧ (normLoose raw ≠ ""%string → head (aliases raw) = Some (normLoose raw)).
Proof.
  unfold aliases. destruct (normLoose raw) as [|c rest] eqn:Hbase.
  { cbn [truthy]. split; [apply NoDup_nil_2|]. by split. }
  cbn [truthy]. set (base := String c rest).
  set (out := uniq (base :: _)).
  assert (NoDup out) as Hnd by apply uniq_NoDup.
  assert (head out = Some base) as Hhd.
  { subst out. unfold uniq. cbn [fold_left].
    rewrite decide_False by apply not_elem_of_nil.
    by rewrite uniq_from_head. }
  assert (out ≠ []) as Hout by (by destruct out).
  cbv zeta. fold out.
  destruct (bool_decide (2 ≤ String.length _)%nat),
           (bool_decide (2 ≤ length _)%nat).
  all: split; [repeat apply add_NoDup; done|].
  all: split; [split; [|done] |].
  all: try (intros _; by rewrite ?add_head by (repeat apply add_nonempty; done)).
  all: intros Hnil; exfalso; revert Hnil;
       repeat apply add_nonempty; done.
Qed.

End Coverage.

(** * The further properties on the example data *)

Section CoverageExamples.
#[local] Existing Instance asciiText.

Lemma filterCandidatesForRole_from_role_witness :
  footballShirt
    ∈ filterCandidatesForRole womenTops top menFootball
        (buildWeights menFootball)
  ∧ footballShirt ∈ womenTops ∧ category footballShirt = top.
Proof.
  assert (footballShirt
            ∈ filterCandidatesForRole womenTops top menFootball
                (buildWeights menFootball)) as Hin.
  { assert (filterCandidatesForRole womenTops top menFootball
              (buildWeights menFootball) = [footballShirt]) as ->
      by (vm_compute; reflexivity).
    left. }
  split; [exact Hin|].
  exact (filterCandidatesForRole_from_role womenTops top menFootball
           (buildWeights menFootball) footballShirt Hin).
Defined.




Lemma filterCandidatesForRole_sport_witness :
  sport_context menFootball ≠ none
  ∧ (∃ y, y ∈ womenTops ∧ category y = top
          ∧ isSportRelevantForContext y (sport_context menFootball)
              (teamTokens (buildWeights menFootball)) = true)
  ∧ ∀ x, x ∈ filterCandidatesForRole womenTops top menFootball
               (buildWeights menFootball) →
      isSportRelevantForContext x (sport_context menFootball)
        (teamTokens (buildWeights menFootball)) = true.
Proof.
  assert (sport_context menFootball ≠ none) as Hsport by discriminate.
  assert (∃ y, y ∈ womenTops ∧ category y = top
               ∧ isSportRelevantForContext y (sport_context menFootball)
                   (teamTokens (buildWeights menFootball)) = true) as Hex.
  { exists footballShirt. split; [left|]. split; reflexivity. }
  split; [exact Hsport|]. split; [exact Hex|].
  exact (filterCandidatesForRole_sport womenTops top menFootball
           (buildWeights menFootball) Hsport Hex).
Defined.

Lemma filterCandidatesForRole_prefers_non_sport_witness :
  sport_context noColourHints = none
  ∧ (∃ y, y ∈ womenTops ∧ category y = top
          ∧ genderCompatible (gender y) (target_gender noColourHints) = true
          ∧ sportOf y = none)
  ∧ ∀ x, x ∈ filterCandidatesForRole womenTops top noColourHints
               (buildWeights noColourHints) →
      sportOf x = none.
Proof.
  assert (∃ y, y ∈ womenTops ∧ category y = top
               ∧ genderCompatible (gender y) (target_gender noColourHints)
                 = true
               ∧ sportOf y = none) as Hex.
  { exists plainTee. split; [right; left|]. repeat split. }
  split; [reflexivity|]. split; [exact Hex|].
  exact (filterCandidatesForRole_prefers_non_sport womenTops top noColourHints
           (buildWeights noColourHints) eq_refl Hex).
Defined.


End CoverageExamples.

(** * The colour-pair term as the runtime computes it *)

Section ColourPairInDoubles.
Import PrimFloat SpecFloat FloatOps FloatAxioms.

Lemma SF64mul_comm x y : SF64mul x y = SF64mul y x.
Proof.
  unfold SF64mul.
  destruct x as [sx|sx| |sx mx ex], y as [sy|sy| |sy my ey]; simpl;
    rewrite ?(xorb_comm sx sy); try reflexivity.
  by rewrite (Pos.mul_comm mx my), (Z.add_comm ex ey).
Qed.

(** The product of two binary64 numbers does not depend on their order. *)
Lemma float_mul_comm (x y : float) : (x * y)%float = (y * x)%float.
Proof. apply Prim2SF_inj. rewrite !mul_spec. apply SF64mul_comm. Qed.

Lemma colourPairAddend_sym ca cb :
  Double.colourPairAddend ca cb = Double.colourPairAddend cb ca.
Proof. destruct ca, cb; reflexivity. Qed.

Lemma flat_map_nil_const {A B} (l : list A) :
  flat_map (λ _, @nil B) l = [].
Proof. by induction l. Qed.

Lemma flat_map_app_perm {A B} (g h : A → list B) (l : list A) :
  flat_map (λ y, g y ++ h y) l ≡ₚ flat_map g l ++ flat_map h l.
Proof.
  induction l as [|y l IH]; simpl; [done|].
  rewrite IH. rewrite <- !app_assoc. apply Permutation_app_head.
  rewrite !app_assoc. apply Permutation_app_tail. apply Permutation_app_comm.
Qed.

Lemma flat_map_swap {A B C} (f : A → B → list C) xs ys :
  flat_map (λ x, flat_map (λ y, f x y) ys) xs
  ≡ₚ flat_map (λ y, flat_map (λ x, f x y) xs) ys.
Proof.
  induction xs as [|x xs IH]; simpl.
  - by rewrite flat_map_nil_const.
  - rewrite IH. symmetry. apply (flat_map_app_perm (f x)).
Qed.

Lemma addends_perm xs ys : Double.addends xs ys ≡ₚ Double.addends ys xs.
Proof.
  unfold Double.addends. etrans; [apply flat_map_swap|].
  erewrite flat_map_ext; [reflexivity|]. intros y. simpl.
  apply flat_map_ext. intros x. by rewrite colourPairAddend_sym.
Qed.

(** With one colour on one side the two loop orders meet the addends in the
    same order. *)
Lemma addends_single x ys : Double.addends [x] ys = Double.addends ys [x].
Proof.
  unfold Double.addends. simpl. rewrite app_nil_r.
  apply flat_map_ext. intros y.
  by rewrite app_nil_r, colourPairAddend_sym.
Qed.

(** The double loop adds the addends in the order in which it meets them. *)
Lemma pairColor_score_addends xs ys (s : float) :
  fold_left (λ score ca,
    fold_left (λ score cb,
      if bool_decide (ca = cb) then (score + 1.0)%float
      else
        let isNeutralA := isNeutral ca in
        let isNeutralB := isNeutral cb in
        if isNeutralA && isNeutralB then (score + 0.6)%float
        else if isNeutralA || isNeutralB then (score + 0.4)%float
        else score) ys score) xs s
  = fold_left add (Double.addends xs ys) s.
Proof.
  unfold Double.addends. revert s.
  induction xs as [|ca xs IH]; intros s; simpl; [done|].
  rewrite fold_left_app, IH. f_equal. clear IH. revert s.
  induction ys as [|cb ys IHb]; intros s; simpl; [done|].
  rewrite fold_left_app, IHb. f_equal. unfold Double.colourPairAddend.
  case_bool_decide; [done|].
  by destruct (isNeutral ca), (isNeutral cb).
Qed.

Lemma pairColorCompatibility_addends a b :
  Double.pairColorCompatibility a b
  = if bool_decide (colours a = []) || bool_decide (colours b = [])
    then 0%float
    else (Double.total (Double.addends (colours a) (colours b))
          / (Double.ofNat (length (colours a))
             * Double.ofNat (length (colours b))))%float.
Proof.
  unfold Double.pairColorCompatibility, Double.total.
  destruct (_ || _); [done|]. by rewrite pairColor_score_addends.
Qed.

(** C8, amended.  On binary64 numbers, [pairColorCompatibility a b] is 0 when
    an item has no colour and otherwise the addends of the colour pairs,
    added in the order of the loops, over the product of the two counts; the
    addends of [(b, a)] are those of [(a, b)] in another order and the
    divisor is the same; and the two values are equal whenever one of the
    items has at most one colour. *)
Theorem pairColorCompatibility_sym_in_doubles a b :
  Double.pairColorCompatibility a b
  = (if bool_decide (colours a = []) || bool_decide (colours b = [])
     then 0%float
     else (Double.total (Double.addends (colours a) (colours b))
           / (Double.ofNat (length (colours a))
              * Double.ofNat (length (colours b))))%float)
  ∧ Double.addends (colours a) (colours b)
    ≡ₚ Double.addends (colours b) (colours a)
  ∧ (Double.ofNat (length (colours a))
     * Double.ofNat (length (colours b)))%float
    = (Double.ofNat (length (colours b))
       * Double.ofNat (length (colours a)))%float
  ∧ ((length (colours a) ≤ 1 ∨ length (colours b) ≤ 1)%nat →
     Double.pairColorCompatibility a b = Double.pairColorCompatibility b a).
Proof.
  split; [apply pairColorCompatibility_addends|].
  split; [apply addends_perm|]. split; [apply float_mul_comm|].
  intros Hone. rewrite !pairColorCompatibility_addends.
  rewrite (orb_comm (bool_decide (colours b = []))).
  destruct (colours a) as [|x [|x' xs]], (colours b) as [|y [|y' ys]];
    try done; simpl in Hone; try lia.
  all: cbn [bool_decide orb decide_rel]; rewrite float_mul_comm;
    do 2 f_equal.
  - apply addends_single.
  - apply addends_single.
  - symmetry. apply addends_single.
Qed.

Lemma pairColorCompatibility_one_colour_witness :
  (length (colours blackOnly) ≤ 1 ∨ length (colours redBlue) ≤ 1)%nat
  ∧ Double.pairColorCompatibility blackOnly redBlue
    = Double.pairColorCompatibility redBlue blackOnly.
Proof.
  assert (length (colours blackOnly) ≤ 1 ∨ length (colours redBlue) ≤ 1)%nat
    as Hone by (left; simpl; lia).
  split; [exact Hone|].
  exact (proj2 (proj2 (proj2
           (pairColorCompatibility_sym_in_doubles blackOnly redBlue))) Hone).
Defined.

(** The claim of C8 fails as stated: for an item of black and red and an
    item of red and blue, one order adds 0.4, 0.4 and 1.0 and the other 0.4,
    1.0 and 0.4; the sums round differently, and the two values are 0.45
    and 0.44999999999999996. *)
Lemma pairColorCompatibility_order_matters :
  Double.pairColorCompatibility blackRed redBlue = 0.45%float
  ∧ Double.pairColorCompatibility redBlue blackRed
    = 0.44999999999999996%float
  ∧ (Double.pairColorCompatibility blackRed redBlue
     =? Double.pairColorCompatibility redBlue blackRed)%float = false.
Proof. vm_compute. repeat split. Qed.

End ColourPairInDoubles.
